(** * Downlink: the queue event handler, the URL extraction and the
      engine contracts of the specification.

    The front end of Downlink (TypeScript, React) keeps a list of queue
    items and folds the events of the back end into it
    ([handleEvent], src/app/hooks/useDownlink.ts).  This development embeds
    that handler, the URL extraction of src/app/page.tsx and the action
    buttons of src/app/components/QueueItem.tsx, and proves the properties the
    specification states about them.

    Conventions of the embedding.
    - A JavaScript string is a [string]: a sequence of code units, here
      restricted to U+0000..U+00FF, the range of [ascii].
    - [T | null] is [option T].
    - A JavaScript number is a [Q]; the handlers only copy numbers and
      write the literal 100.
    - [setQueue (prev => f prev)] is the state transformer [f] on the
      [queue] field of the hook state. *)

From stdpp Require Import base option list strings gmap.
From Stdlib Require Import Ascii String NArith QArith Sorted.

Close Scope Q_scope.
Local Open Scope string_scope.

(** ** Data model (src/app/types.ts) *)

(** [DownloadStatus] is a union of string literals; at run time a status is
    the string itself ([normalizeStatus] only casts). *)
Definition DownloadStatus := string.

Record QueueItem := {
  id : string;
  source_url : string;
  title : option string;
  uploader : option string;
  thumbnail_url : option string;
  duration_seconds : option Q;
  status : DownloadStatus;
  phase : option string;
  progress_percent : option Q;
  bytes_downloaded : option Q;
  bytes_total : option Q;
  speed_bps : option Q;
  eta_seconds : option Q;
  preset_id : string;
  output_dir : string;
  final_path : option string;
  error_message : option string
}.

(** Object spread with one overridden key: [{ ...item, key: v }]. *)
Definition with_status (v : DownloadStatus) (item : QueueItem) : QueueItem :=
  {| id := id item; source_url := source_url item; title := title item;
     uploader := uploader item; thumbnail_url := thumbnail_url item;
     duration_seconds := duration_seconds item; status := v;
     phase := phase item; progress_percent := progress_percent item;
     bytes_downloaded := bytes_downloaded item; bytes_total := bytes_total item;
     speed_bps := speed_bps item; eta_seconds := eta_seconds item;
     preset_id := preset_id item; output_dir := output_dir item;
     final_path := final_path item; error_message := error_message item |}.

Definition with_phase (v : option string) (item : QueueItem) : QueueItem :=
  {| id := id item; source_url := source_url item; title := title item;
     uploader := uploader item; thumbnail_url := thumbnail_url item;
     duration_seconds := duration_seconds item; status := status item;
     phase := v; progress_percent := progress_percent item;
     bytes_downloaded := bytes_downloaded item; bytes_total := bytes_total item;
     speed_bps := speed_bps item; eta_seconds := eta_seconds item;
     preset_id := preset_id item; output_dir := output_dir item;
     final_path := final_path item; error_message := error_message item |}.

Definition with_progress_percent (v : option Q) (item : QueueItem) : QueueItem :=
  {| id := id item; source_url := source_url item; title := title item;
     uploader := uploader item; thumbnail_url := thumbnail_url item;
     duration_seconds := duration_seconds item; status := status item;
     phase := phase item; progress_percent := v;
     bytes_downloaded := bytes_downloaded item; bytes_total := bytes_total item;
     speed_bps := speed_bps item; eta_seconds := eta_seconds item;
     preset_id := preset_id item; output_dir := output_dir item;
     final_path := final_path item; error_message := error_message item |}.

Definition with_speed_bps (v : option Q) (item : QueueItem) : QueueItem :=
  {| id := id item; source_url := source_url item; title := title item;
     uploader := uploader item; thumbnail_url := thumbnail_url item;
     duration_seconds := duration_seconds item; status := status item;
     phase := phase item; progress_percent := progress_percent item;
     bytes_downloaded := bytes_downloaded item; bytes_total := bytes_total item;
     speed_bps := v; eta_seconds := eta_seconds item;
     preset_id := preset_id item; output_dir := output_dir item;
     final_path := final_path item; error_message := error_message item |}.

Definition with_eta_seconds (v : option Q) (item : QueueItem) : QueueItem :=
  {| id := id item; source_url := source_url item; title := title item;
     uploader := uploader item; thumbnail_url := thumbnail_url item;
     duration_seconds := duration_seconds item; status := status item;
     phase := phase item; progress_percent := progress_percent item;
     bytes_downloaded := bytes_downloaded item; bytes_total := bytes_total item;
     speed_bps := speed_bps item; eta_seconds := v;
     preset_id := preset_id item; output_dir := output_dir item;
     final_path := final_path item; error_message := error_message item |}.

Definition with_final_path (v : option string) (item : QueueItem) : QueueItem :=
  {| id := id item; source_url := source_url item; title := title item;
     uploader := uploader item; thumbnail_url := thumbnail_url item;
     duration_seconds := duration_seconds item; status := status item;
     phase := phase item; progress_percent := progress_percent item;
     bytes_downloaded := bytes_downloaded item; bytes_total := bytes_total item;
     speed_bps := speed_bps item; eta_seconds := eta_seconds item;
     preset_id := preset_id item; output_dir := output_dir item;
     final_path := v; error_message := error_message item |}.

Definition with_error_message (v : option string) (item : QueueItem) : QueueItem :=
  {| id := id item; source_url := source_url item; title := title item;
     uploader := uploader item; thumbnail_url := thumbnail_url item;
     duration_seconds := duration_seconds item; status := status item;
     phase := phase item; progress_percent := progress_percent item;
     bytes_downloaded := bytes_downloaded item; bytes_total := bytes_total item;
     speed_bps := speed_bps item; eta_seconds := eta_seconds item;
     preset_id := preset_id item; output_dir := output_dir item;
     final_path := final_path item; error_message := v |}.

Definition with_title (v : option string) (item : QueueItem) : QueueItem :=
  {| id := id item; source_url := source_url item; title := v;
     uploader := uploader item; thumbnail_url := thumbnail_url item;
     duration_seconds := duration_seconds item; status := status item;
     phase := phase item; progress_percent := progress_percent item;
     bytes_downloaded := bytes_downloaded item; bytes_total := bytes_total item;
     speed_bps := speed_bps item; eta_seconds := eta_seconds item;
     preset_id := preset_id item; output_dir := output_dir item;
     final_path := final_path item; error_message := error_message item |}.

Definition with_uploader (v : option string) (item : QueueItem) : QueueItem :=
  {| id := id item; source_url := source_url item; title := title item;
     uploader := v; thumbnail_url := thumbnail_url item;
     duration_seconds := duration_seconds item; status := status item;
     phase := phase item; progress_percent := progress_percent item;
     bytes_downloaded := bytes_downloaded item; bytes_total := bytes_total item;
     speed_bps := speed_bps item; eta_seconds := eta_seconds item;
     preset_id := preset_id item; output_dir := output_dir item;
     final_path := final_path item; error_message := error_message item |}.

Definition with_thumbnail_url (v : option string) (item : QueueItem) : QueueItem :=
  {| id := id item; source_url := source_url item; title := title item;
     uploader := uploader item; thumbnail_url := v;
     duration_seconds := duration_seconds item; status := status item;
     phase := phase item; progress_percent := progress_percent item;
     bytes_downloaded := bytes_downloaded item; bytes_total := bytes_total item;
     speed_bps := speed_bps item; eta_seconds := eta_seconds item;
     preset_id := preset_id item; output_dir := output_dir item;
     final_path := final_path item; error_message := error_message item |}.

Definition with_duration_seconds (v : option Q) (item : QueueItem) : QueueItem :=
  {| id := id item; source_url := source_url item; title := title item;
     uploader := uploader item; thumbnail_url := thumbnail_url item;
     duration_seconds := v; status := status item;
     phase := phase item; progress_percent := progress_percent item;
     bytes_downloaded := bytes_downloaded item; bytes_total := bytes_total item;
     speed_bps := speed_bps item; eta_seconds := eta_seconds item;
     preset_id := preset_id item; output_dir := output_dir item;
     final_path := final_path item; error_message := error_message item |}.

(** The [a ?? b] operator on a nullable left operand. *)
Definition nullish {A} (a : option A) (b : option A) : option A :=
  match a with Some x => Some x | None => b end.

(** ** Event payloads (src/app/types.ts and the casts of [handleEvent]) *)

Record Versions := {
  app_version : string;
  yt_dlp_version : option string;
  ffmpeg_version : option string
}.

Record Phase := { name : string; detail : option string }.

Record Progress := {
  percent : option Q;
  p_bytes_downloaded : option Q;
  p_bytes_total : option Q;
  p_speed_bps : option Q;
  p_eta_seconds : option Q;
  p_phase : option Phase
}.

Record Action := { kind : string; label : string }.

Record MetadataInfo := {
  i_title : option string;
  i_uploader : option string;
  i_duration_seconds : option Q;
  i_thumbnail_url : option string;
  i_webpage_url : option string
}.

(** One constructor per [DownlinkEventType]; the eight kinds that
    [handleEvent] has no case for carry no payload here ([data: unknown] is
    never read). *)
Inductive DownlinkEvent :=
  | AppReady (versions : Versions)
  | ClipboardUrlDetected
  | MetadataStarted
  | MetadataReady (eid : string) (info : MetadataInfo)
  | PlaylistExpanded
  | DownloadQueued
  | DownloadStarted (eid : string)
  | DownloadProgress (eid : string) (st : string) (progress : Progress)
  | DownloadPostProcessing (eid : string) (step : string)
  | DownloadStopped (eid : string)
  | DownloadCanceled (eid : string)
  | DownloadCompleted (eid : string) (path : string)
  | DownloadFailed (eid : string) (error_code : string) (user_message : string)
                   (actions : list Action)
  | ToolUpdateAvailable
  | ToolUpdateProgress
  | ToolUpdateCompleted
  | ToolUpdateFailed.

(** ** The hook state and the event handler (src/app/hooks/useDownlink.ts) *)

Record HookState := {
  isReady : bool;
  appVersion : option string;
  ytDlpVersion : option string;
  ffmpegVersion : option string;
  queue : list QueueItem;
  history : list QueueItem
}.

Definition setQueue (f : list QueueItem → list QueueItem) (s : HookState)
  : HookState :=
  {| isReady := isReady s; appVersion := appVersion s;
     ytDlpVersion := ytDlpVersion s; ffmpegVersion := ffmpegVersion s;
     queue := f (queue s); history := history s |}.

(** [String.prototype.toLowerCase] on the code units U+0000..U+00FF: the
    letters A-Z and the Latin-1 capitals U+00C0..U+00DE (U+00D7, the
    multiplication sign, excepted) move up by 32. *)
Definition lower_unit (c : ascii) : ascii :=
  let n := N_of_ascii c in
  if ((65 <=? n) && (n <=? 90))%N then ascii_of_N (n + 32)
  else if ((192 <=? n) && (n <=? 222) && negb (n =? 215))%N
       then ascii_of_N (n + 32)
  else c.

Fixpoint toLowerCase (s : string) : string :=
  match s with
  | EmptyString => EmptyString
  | String c s' => String (lower_unit c) (toLowerCase s')
  end.

(** [normalizeStatus]: lower-case the back end's status, then cast. *)
Definition normalizeStatus (st : string) : DownloadStatus := toLowerCase st.

(** [prev.map((item) => item.id === eid ? f item : item)], the shape of
    every queue update in [handleEvent]. *)
Definition map_item (eid : string) (f : QueueItem → QueueItem)
    (prev : list QueueItem) : list QueueItem :=
  (λ item, if String.eqb (id item) eid then f item else item) <$> prev.

(** The phase literal of the DownloadStarted case ends with U+2026, held
    here as the bytes of its UTF-8 form; it is only ever copied. *)
Definition handleEvent (event : DownlinkEvent) (s : HookState) : HookState :=
  match event with
  | AppReady versions =>
      {| isReady := true;
         appVersion := Some (app_version versions);
         ytDlpVersion := yt_dlp_version versions;
         ffmpegVersion := ffmpeg_version versions;
         queue := queue s; history := history s |}
  | DownloadProgress eid st progress =>
      setQueue (map_item eid (λ item,
        with_phase (name <$> p_phase progress)
          (with_eta_seconds (p_eta_seconds progress)
            (with_speed_bps (p_speed_bps progress)
              (with_progress_percent (percent progress)
                (with_status (normalizeStatus st) item)))))) s
  | DownloadCompleted eid path =>
      setQueue (map_item eid (λ item,
        with_phase (Some "Completed")
          (with_final_path (Some path)
            (with_progress_percent (Some 100%Q)
              (with_status "done" item))))) s
  | DownloadFailed eid _ user_message _ =>
      setQueue (map_item eid (λ item,
        with_error_message (Some user_message)
          (with_phase (Some "Failed")
            (with_status "failed" item)))) s
  | DownloadStopped eid =>
      setQueue (map_item eid (λ item,
        with_eta_seconds None
          (with_speed_bps None
            (with_phase (Some "Stopped")
              (with_status "stopped" item))))) s
  | DownloadCanceled eid =>
      setQueue (map_item eid (λ item,
        with_phase (Some "Canceled") (with_status "canceled" item))) s
  | DownloadStarted eid =>
      setQueue (map_item eid (λ item,
        with_phase (Some "Starting…") (with_status "downloading" item))) s
  | MetadataReady eid info =>
      setQueue (map_item eid (λ item,
        with_duration_seconds
            (nullish (i_duration_seconds info) (duration_seconds item))
          (with_thumbnail_url
              (nullish (i_thumbnail_url info) (thumbnail_url item))
            (with_uploader (nullish (i_uploader info) (uploader item))
              (with_title (nullish (i_title info) (title item)) item))))) s
  | DownloadPostProcessing eid step =>
      setQueue (map_item eid (λ item,
        with_phase (Some step) (with_status "postprocessing" item))) s
  | ClipboardUrlDetected | MetadataStarted | PlaylistExpanded | DownloadQueued
  | ToolUpdateAvailable | ToolUpdateProgress | ToolUpdateCompleted
  | ToolUpdateFailed => s
  end.

(** The job id an event is about, for the event kinds that carry one and
    that [handleEvent] reads. *)
Definition event_id (event : DownlinkEvent) : option string :=
  match event with
  | MetadataReady eid _ | DownloadStarted eid | DownloadProgress eid _ _
  | DownloadPostProcessing eid _ | DownloadStopped eid | DownloadCanceled eid
  | DownloadCompleted eid _ | DownloadFailed eid _ _ _ => Some eid
  | _ => None
  end.

(** Events arrive one at a time through the listener and are folded into
    the state in arrival order. *)
Definition handleEvents (events : list DownlinkEvent) (s : HookState)
  : HookState :=
  foldl (λ acc event, handleEvent event acc) s events.

(** ** Download control and the item's buttons
       (useDownlink.ts, components/QueueItem.tsx, page.tsx) *)

(** What a control function does, as the sequence of its back-end calls:
    [invoke cmd arg] and the queue reload [refreshQueue]. *)
Inductive Effect :=
  | invoke (cmd : string) (arg : string)
  | refreshQueue.

Definition startDownload (i : string) : list Effect :=
  [invoke "start_download" i; refreshQueue].
Definition stopDownload (i : string) : list Effect :=
  [invoke "stop_download" i].
Definition cancelDownload (i : string) : list Effect :=
  [invoke "cancel_download" i; refreshQueue].
Definition retryDownload (i : string) : list Effect :=
  [invoke "retry_download" i; refreshQueue].
Definition removeDownload (i : string) : list Effect :=
  [invoke "remove_download" i; refreshQueue].
Definition openFile (path : string) : list Effect := [invoke "open_file" path].
Definition openFolder (path : string) : list Effect :=
  [invoke "open_folder" path].

Record QueueItemProps := {
  item : QueueItem;
  onStart : option (string → list Effect);
  onStop : option (string → list Effect);
  onCancel : option (string → list Effect);
  onRetry : option (string → list Effect);
  onRemove : option (string → list Effect);
  onOpenFile : option (string → list Effect);
  onOpenFolder : option (string → list Effect)
}.

(** [cb?.(arg)] *)
Definition call_opt (cb : option (string → list Effect)) (arg : string)
  : list Effect :=
  match cb with Some f => f arg | None => [] end.

(** A string is truthy when it is not empty; [null] is falsy. *)
Definition truthy (s : string) : bool := negb (String.eqb s "").
Definition truthy_opt (o : option string) : bool :=
  match o with Some s => truthy s | None => false end.

Section QueueItemComponent.
Variable props : QueueItemProps.

Definition handleStart : list Effect := call_opt (onStart props) (id (item props)).
Definition handleStop : list Effect := call_opt (onStop props) (id (item props)).
Definition handleCancel : list Effect := call_opt (onCancel props) (id (item props)).
Definition handleRetry : list Effect := call_opt (onRetry props) (id (item props)).
Definition handleRemove : list Effect := call_opt (onRemove props) (id (item props)).
Definition handleOpenFile : list Effect :=
  match final_path (item props) with
  | Some p => if truthy p then call_opt (onOpenFile props) p else []
  | None => []
  end.

Definition isDone : bool := String.eqb (status (item props)) "done".
Definition isActive : bool :=
  String.eqb (status (item props)) "downloading"
  || String.eqb (status (item props)) "postprocessing"
  || String.eqb (status (item props)) "fetching".
Definition isQueued : bool :=
  String.eqb (status (item props)) "queued"
  || String.eqb (status (item props)) "ready".
Definition isStopped : bool := String.eqb (status (item props)) "stopped".
Definition isFailed : bool := String.eqb (status (item props)) "failed".
Definition isCanceled : bool := String.eqb (status (item props)) "canceled".

Definition handleOpenFolder : list Effect :=
  let path :=
    if isDone && truthy_opt (final_path (item props))
    then default "" (final_path (item props))
    else output_dir (item props) in
  if truthy path then call_opt (onOpenFolder props) path else [].

(** [cond && <button title=... onClick=... />] *)
Definition button (cond : bool) (title : string) (onClick : list Effect)
  : list (string * list Effect) :=
  if cond then [(title, onClick)] else [].

(** The buttons the component renders, in document order, each with its
    title and what a click does. *)
Definition buttons : list (string * list Effect) :=
  button isQueued "Start download" handleStart
  ++ button isActive "Stop download" handleStop
  ++ button isStopped "Resume download" handleStart
  ++ button isFailed "Retry download" handleRetry
  ++ button (isDone && truthy_opt (final_path (item props)))
       "Open file" handleOpenFile
  ++ button (isDone || truthy (output_dir (item props)))
       (if isDone then "Reveal in folder" else "Open download folder")
       handleOpenFolder
  ++ button (isQueued || isStopped || isFailed || isCanceled)
       "Remove from queue" handleRemove
  ++ button isActive "Cancel download" handleCancel.
End QueueItemComponent.

(** The props the page passes for each displayed item. *)
Definition page_props (it : QueueItem) : QueueItemProps :=
  {| item := it;
     onStart := Some startDownload; onStop := Some stopDownload;
     onCancel := Some cancelDownload; onRetry := Some retryDownload;
     onRemove := Some removeDownload; onOpenFile := Some openFile;
     onOpenFolder := Some openFolder |}.

(** ** URL extraction (src/app/page.tsx, [extractedUrls]) *)

(** The class [\s] and the characters [trim] strips, within
    U+0000..U+00FF: TAB, LF, VT, FF, CR, SPACE and NO-BREAK SPACE. *)
Definition is_space (c : ascii) : bool :=
  let n := N_of_ascii c in
  ((9 <=? n) && (n <=? 13) || (n =? 32) || (n =? 160))%N.

Fixpoint trimStart (s : string) : string :=
  match s with
  | EmptyString => EmptyString
  | String c s' => if is_space c then trimStart s' else s
  end.

Fixpoint trimEnd (s : string) : string :=
  match s with
  | EmptyString => EmptyString
  | String c s' =>
      match trimEnd s' with
      | EmptyString => if is_space c then EmptyString else String c EmptyString
      | t => String c t
      end
  end.

Definition trim (s : string) : string := trimEnd (trimStart s).

(** [[^\s]+], greedy: the longest run of non-space characters at the head of
    [s], and what follows it. *)
Fixpoint span_nonspace (s : string) : string * string :=
  match s with
  | EmptyString => (EmptyString, EmptyString)
  | String c s' =>
      if is_space c then (EmptyString, s)
      else let '(run, rest) := span_nonspace s' in (String c run, rest)
  end.

(** A literal of the pattern at the head of [s]: what follows it. *)
Fixpoint strip_prefix (lit s : string) : option string :=
  match lit with
  | EmptyString => Some s
  | String a lit' =>
      match s with
      | String b s' => if Ascii.eqb a b then strip_prefix lit' s' else None
      | EmptyString => None
      end
  end.

(** [https?:\/\/] at the head of [s]: the scheme matched and the rest.
    The optional [s] is tried first; when [:\/\/] does not follow it, the
    matcher backtracks and tries [:\/\/] right after [http]. *)
Definition match_scheme (s : string) : option (string * string) :=
  match strip_prefix "http" s with
  | Some r =>
      match strip_prefix "s" r ≫= strip_prefix "://" with
      | Some r' => Some ("https://", r')
      | None =>
          match strip_prefix "://" r with
          | Some r' => Some ("http://", r')
          | None => None
          end
      end
  | None => None
  end.

(** One attempt of [/https?:\/\/[^\s]+/] anchored at the head of [s]. *)
Definition match_at (s : string) : option string :=
  match match_scheme s with
  | Some (scheme, r) =>
      match span_nonspace r with
      | (EmptyString, _) => None
      | (run, _) => Some (scheme ++ run)
      end
  | None => None
  end.

(** The global scan: try each position from the left; after a match the
    next attempt starts where the match ended ([lastIndex]), which
    [skip] counts down to. *)
Fixpoint scan (skip : nat) (s : string) : list string :=
  match s with
  | EmptyString => []
  | String _ s' =>
      match skip with
      | S k => scan k s'
      | O =>
          match match_at s with
          | Some m => m :: scan (String.length m - 1) s'
          | None => scan 0 s'
          end
      end
  end.

(** [urlInput.match(/https?:\/\/[^\s]+/g)]: [null] when nothing matches. *)
Definition match_g (s : string) : option (list string) :=
  match scan 0 s with
  | [] => None
  | ms => Some ms
  end.

(** The body of [for (const m of matches)] on the pair ([seen], [out]). *)
Definition push_unseen (st : gset string * list string) (m : string)
  : gset string * list string :=
  let u := trim m in
  if decide (u ∈ st.1) then st else ({[u]} ∪ st.1, (st.2 ++ [u])%list).

Definition extractedUrls (urlInput : string) : list string :=
  if negb (truthy (trim urlInput)) then []
  else
    let matches := default [] (match_g urlInput) in
    (foldl push_unseen (∅, []) matches).2.

(** The claim's words for the result: each match once, at the place of its
    first occurrence. *)
Fixpoint first_occurrences (l : list string) : list string :=
  match l with
  | [] => []
  | x :: l' => x :: filter (λ y, y ≠ x) (first_occurrences l')
  end.

(** The pattern as a predicate: a scheme followed by a non-empty run of
    non-space characters. *)
Definition all_nonspace (s : string) : Prop :=
  ∀ c, c ∈ list_ascii_of_string s → is_space c = false.

Definition all_space (s : string) : Prop :=
  ∀ c, c ∈ list_ascii_of_string s → is_space c = true.

Definition is_url_match (u : string) : Prop :=
  ∃ scheme run, u = scheme ++ run
    ∧ (scheme = "http://" ∨ scheme = "https://")
    ∧ run ≠ "" ∧ all_nonspace run.

Definition is_substring (u s : string) : Prop :=
  ∃ pre post, s = pre ++ u ++ post.

(** What follows a maximal run: the end of the text or a space. *)
Definition at_boundary (rest : string) : Prop :=
  rest = "" ∨ ∃ c r, rest = String c r ∧ is_space c = true.

(** ** Tool status (src/app/types.ts) *)

Inductive ToolStatus := ok | outdated | missing | broken.

(** The string literal of each member of the union. *)
Definition ToolStatus_literal (t : ToolStatus) : string :=
  match t with
  | ok => "ok"
  | outdated => "outdated"
  | missing => "missing"
  | broken => "broken"
  end.

Record ToolInfo := {
  tool : string;
  path : string;
  version : option string;
  tool_status : ToolStatus;
  is_bundled : bool;
  last_checked : option string
}.

Record ToolchainStatus := {
  yt_dlp : option ToolInfo;
  ffmpeg : option ToolInfo;
  ffprobe : option ToolInfo;
  overall_status : ToolStatus
}.

(** The three health values the specification names (section 6). *)
Definition spec_health_values : list string := ["ok"; "degraded"; "missing"].

Module Orchestrator.

(** The closed error taxonomy of the specification (section 4.6). *)
Inductive ErrorKind :=
  | authRequired | extractorOutdated | geoRestricted | formatUnavailable
  | networkError | diskError | toolMissing | unknown.

Inductive StartResult :=
  | Spawned (executable : string)
  | Refused (kind : ErrorKind).

(** Modelled from the spec: the start gate of the Process Orchestrator
    (the Rust back end, not among the sources).  Section 6: the
    orchestrator consumes the tool's resolved path and health status and
    refuses to start a job if health is not ok, surfacing a toolMissing
    classified error instead of attempting spawn. *)
Definition start (health : ToolStatus) (resolved_path : string)
  : StartResult :=
  match health with
  | ok => Spawned resolved_path
  | _ => Refused toolMissing
  end.

End Orchestrator.

(** ** The scheduler of the specification (sections 4.1 and 4.2) *)

Module Scheduler.

Inductive Status :=
  | queued | fetching | ready | downloading | postprocessing
  | stopped | done | failed | canceled.

Record JobRecord := { job_id : nat; job_status : Status }.

Record State := { jobs : list JobRecord; concurrency_limit : nat }.

Definition is_active (st : Status) : bool :=
  match st with downloading | postprocessing => true | _ => false end.
Definition is_queued (st : Status) : bool :=
  match st with queued => true | _ => false end.
Definition is_stopped (st : Status) : bool :=
  match st with stopped => true | _ => false end.
Definition is_failed (st : Status) : bool :=
  match st with failed => true | _ => false end.
Definition is_downloading (st : Status) : bool :=
  match st with downloading => true | _ => false end.

Fixpoint count_active (js : list JobRecord) : nat :=
  match js with
  | [] => 0
  | j :: js' =>
      (if is_active (job_status j) then 1 else 0) + count_active js'
  end.

Definition active_count (s : State) : nat := count_active (jobs s).

Definition set_status (st : Status) (j : JobRecord) : JobRecord :=
  {| job_id := job_id j; job_status := st |}.

(** Moves the first job that satisfies [p] to status [st]. *)
Fixpoint move_first (p : JobRecord → bool) (st : Status)
    (js : list JobRecord) : list JobRecord :=
  match js with
  | [] => []
  | j :: js' =>
      if p j then set_status st j :: js' else j :: move_first p st js'
  end.

Definition with_jobs (js : list JobRecord) (s : State) : State :=
  {| jobs := js; concurrency_limit := concurrency_limit s |}.

(** The transition of job [i] from a status in [from] to [st]. *)
Definition transition (i : nat) (from : Status → bool) (st : Status)
    (s : State) : State :=
  with_jobs
    (move_first (λ j, Nat.eqb (job_id j) i && from (job_status j)) st
       (jobs s)) s.

(** Modelled from the spec: the admission step of the Scheduler (the
    Rust back end, not among the sources).  Section 4.2: the scheduler
    admits the next eligible queued job, in submission order, if
    active-count < concurrency-limit.  The metadata steps fetching and
    ready are collapsed into the admission, as section 4.1 allows. *)
Definition admission (s : State) : State :=
  if (active_count s <? concurrency_limit s)%nat
  then with_jobs (move_first (λ j, is_queued (job_status j)) downloading
                    (jobs s)) s
  else s.

Inductive Request :=
  | submit (i : nat)
  | cancel (i : nat)
  | stop (i : nat)
  | resume (i : nat)
  | retry (i : nat)
  | startAll
  | stopAll
  | set_limit (n : nat)
  | on_postprocessing (i : nat)
  | on_exit_success (i : nat)
  | on_exit_failure (i : nat).

(** Modelled from the spec: the Scheduler's reaction to its contract
    calls and to the process events (the Rust back end, not among the
    sources).  Sections 4.1 and 4.2: a submitted job is queued; every
    slot-freeing event (completion, failure, cancel, stop) is followed by
    an admission; resume re-admits a stopped job, so it needs a free
    slot; retry re-enqueues a failed job; the limit is adjustable at run
    time and lowering it does not preempt active jobs, it only throttles
    future admission. *)
Definition step (r : Request) (s : State) : State :=
  match r with
  | submit i =>
      admission (with_jobs (jobs s ++ [{| job_id := i; job_status := queued |}])%list s)
  | cancel i => admission (transition i is_active canceled s)
  | stop i => admission (transition i is_active stopped s)
  | resume i =>
      if (active_count s <? concurrency_limit s)%nat
      then transition i is_stopped downloading s
      else s
  | retry i => admission (transition i is_failed queued s)
  | startAll => Nat.iter (List.length (jobs s)) admission s
  | stopAll =>
      with_jobs
        ((λ j, if is_active (job_status j) then set_status stopped j else j)
           <$> jobs s) s
  | set_limit n => {| jobs := jobs s; concurrency_limit := n |}
  | on_postprocessing i => transition i is_downloading postprocessing s
  | on_exit_success i => admission (transition i is_active done s)
  | on_exit_failure i => admission (transition i is_active failed s)
  end.

Definition run (rs : list Request) (s : State) : State :=
  foldl (λ acc r, step r acc) s rs.

Definition init (limit : nat) : State :=
  {| jobs := []; concurrency_limit := limit |}.

(** Along the run of [rs] from [s], no [set_limit] puts the limit below
    the number of jobs active at that moment. *)
Fixpoint never_lowered_below_active (rs : list Request) (s : State) : bool :=
  match rs with
  | [] => true
  | r :: rs' =>
      match r with
      | set_limit n => (active_count s <=? n)%nat
      | _ => true
      end && never_lowered_below_active rs' (step r s)
  end.

End Scheduler.

(** ** The event stream of one job (sections 4.3 and 5) *)

Module EventBus.

Inductive JobEvent :=
  | progress (percent : nat)
  | completed
  | failed
  | canceled.

Definition is_terminal (e : JobEvent) : bool :=
  match e with progress _ => false | _ => true end.

(** An event as the job emits it, with the time of emission. *)
Record Emitted := { at_ms : nat; event : JobEvent }.

(** Modelled from the spec: the rate limiter between a job and its
    listeners (the Rust back end, not among the sources).  Section 4.3:
    progress events are rate-limited per job; the normalizer drops
    intermediate lines when the interval has not elapsed, and never
    drops the final terminal event.  [last] is the time of the last
    progress event let through. *)
Fixpoint throttle (interval : nat) (last : option nat) (es : list Emitted)
  : list Emitted :=
  match es with
  | [] => []
  | e :: es' =>
      if is_terminal (event e) then e :: throttle interval last es'
      else
        match last with
        | Some t =>
            if (at_ms e <? t + interval)%nat then throttle interval last es'
            else e :: throttle interval (Some (at_ms e)) es'
        | None => e :: throttle interval (Some (at_ms e)) es'
        end
  end.

(** What a listener observes of the emissions [es] of one job. *)
Definition delivered (interval : nat) (es : list Emitted) : list Emitted :=
  throttle interval None es.

(** The emissions of one attempt of a job: progress events, then its
    terminal event. *)
Definition one_attempt (es : list Emitted) (t : Emitted) : Prop :=
  is_terminal (event t) = true
  ∧ ∀ e, e ∈ es → is_terminal (event e) = false.

Definition sample_emissions : list Emitted :=
  [ {| at_ms := 0; event := progress 1 |};
    {| at_ms := 40; event := progress 2 |};
    {| at_ms := 90; event := progress 3 |};
    {| at_ms := 210; event := progress 50 |};
    {| at_ms := 215; event := progress 99 |} ].

End EventBus.

(** ** Sample data for closed instances *)

Definition sample_item (i : string) (st : DownloadStatus) : QueueItem :=
  {| id := i; source_url := "https://example.org/v"; title := Some "Clip";
     uploader := None; thumbnail_url := None; duration_seconds := Some 90%Q;
     status := st; phase := Some "Downloading";
     progress_percent := Some 42%Q; bytes_downloaded := Some 420%Q;
     bytes_total := Some 1000%Q; speed_bps := Some 2048%Q;
     eta_seconds := Some 7%Q; preset_id := "recommended_best";
     output_dir := "/tmp"; final_path := None; error_message := None |}.

Definition sample_state : HookState :=
  {| isReady := true; appVersion := Some "0.1.0"; ytDlpVersion := None;
     ffmpegVersion := None;
     queue := [sample_item "job-1" "downloading"; sample_item "job-2" "queued"];
     history := [] |}.

Definition sample_input : string :=
  "see http://a.b/c and https://x.y, then http://a.b/c again".

(** ** Status presentation (src/app/types.ts) *)

Definition getStatusColor (st : DownloadStatus) : string :=
  if String.eqb st "queued" || String.eqb st "ready" then "text-zinc-500"
  else if String.eqb st "fetching" || String.eqb st "downloading"
          || String.eqb st "postprocessing" then "text-blue-500"
  else if String.eqb st "stopped" then "text-yellow-500"
  else if String.eqb st "done" then "text-green-500"
  else if String.eqb st "failed" then "text-red-500"
  else if String.eqb st "canceled" then "text-zinc-400"
  else "text-zinc-500".

Definition getStatusLabel (st : DownloadStatus) : string :=
  if String.eqb st "queued" then "Queued"
  else if String.eqb st "fetching" then "Fetching info…"
  else if String.eqb st "ready" then "Ready"
  else if String.eqb st "downloading" then "Downloading"
  else if String.eqb st "postprocessing" then "Processing…"
  else if String.eqb st "stopped" then "Stopped"
  else if String.eqb st "done" then "Completed"
  else if String.eqb st "failed" then "Failed"
  else if String.eqb st "canceled" then "Canceled"
  else st.

(** The nine members of [DownloadStatus]. *)
Definition DownloadStatus_literals : list string :=
  ["queued"; "fetching"; "ready"; "downloading"; "postprocessing";
   "stopped"; "done"; "failed"; "canceled"].

(** The status line of the item component:
    [item.phase || getStatusLabel(item.status)]. *)
Definition statusText (it : QueueItem) : string :=
  if truthy_opt (phase it) then default "" (phase it)
  else getStatusLabel (status it).

(** The progress bar is rendered under [isActive || isStopped || isDone]. *)
Definition showsProgressBar (props : QueueItemProps) : bool :=
  isActive props || isStopped props || isDone props.

(** The component renders a button with this title. *)
Definition offers (props : QueueItemProps) (title : string) : Prop :=
  ∃ click, (title, click) ∈ buttons props.

(** How many of the six status flags of the component hold. *)
Definition flags_set (props : QueueItemProps) : nat :=
  List.length
    (filter (λ b : bool, b = true)
       [isQueued props; isActive props; isStopped props; isFailed props;
        isDone props; isCanceled props]).

(** ** Presets (src/app/page.tsx) *)

Module Preset.
Record PresetWithHint := { id : string; name : string; hint : string }.
End Preset.

Definition PRESETS : list Preset.PresetWithHint :=
  [ {| Preset.id := "recommended_best"; Preset.name := "Recommended (Best)";
       Preset.hint := "Best quality, merges automatically" |};
    {| Preset.id := "mp4_1080p"; Preset.name := "1080p MP4";
       Preset.hint := "Best compatibility" |};
    {| Preset.id := "mp4_best"; Preset.name := "Best MP4";
       Preset.hint := "Prefer MP4 container" |};
    {| Preset.id := "audio_m4a"; Preset.name := "Audio M4A";
       Preset.hint := "Fastest, great quality" |};
    {| Preset.id := "audio_mp3_320"; Preset.name := "Audio MP3 320";
       Preset.hint := "Most compatible, larger file" |} ].

(** [PRESETS.find((p) => p.id === presetId) ?? PRESETS[0]] *)
Definition selectedPreset (presetId : string) : option Preset.PresetWithHint :=
  match List.find (λ p, String.eqb (Preset.id p) presetId) PRESETS with
  | Some p => Some p
  | None => PRESETS !! 0%nat
  end.

(** ** Per-URL previews (src/app/page.tsx) *)

Module FetchMetadata.
Record FetchMetadataResult := {
  id : string;
  url : string;
  is_playlist : bool;
  title : option string;
  uploader : option string;
  duration_seconds : option Q;
  thumbnail_url : option string;
  filesize_bytes : option Q;
  playlist_title : option string;
  playlist_count_hint : option Q
}.
End FetchMetadata.

Record UrlPreview := {
  url : string;
  loading : bool;
  data : option FetchMetadata.FetchMetadataResult;
  error : option string;
  presetId : string
}.

(** The form state the URL handlers update. *)
Record FormState := {
  urlInput : string;
  urlPreviews : gmap string UrlPreview
}.

(** [handleUrlPresetChange]: a copy of the map in which the entry of [u],
    when there is one, gets the new preset. *)
Definition handleUrlPresetChange (u newPresetId : string) (st : FormState)
  : FormState :=
  {| urlInput := urlInput st;
     urlPreviews :=
       match urlPreviews st !! u with
       | Some existing =>
           <[u := {| url := url existing; loading := loading existing;
                     data := data existing; error := error existing;
                     presetId := newPresetId |}]> (urlPreviews st)
       | None => urlPreviews st
       end |}.

(** [handleRemoveUrl]: the input becomes the remaining matches joined by
    one space, and the preview of the removed URL is deleted. *)
Definition handleRemoveUrl (urlToRemove : string) (st : FormState) : FormState :=
  {| urlInput :=
       String.concat " "
         (filter (λ u, u ≠ urlToRemove) (default [] (match_g (urlInput st))));
     urlPreviews := delete urlToRemove (urlPreviews st) |}.

(** One turn of [for (const url of extractedUrls)] in the preview effect,
    on the pair ([newPreviews], [urlsToFetch]); [old] is the preview map of
    the current render. *)
Definition keep_or_start (old : gmap string UrlPreview) (preset : string)
    (acc : gmap string UrlPreview * list string) (u : string)
  : gmap string UrlPreview * list string :=
  match old !! u with
  | Some existing => (<[u := existing]> acc.1, acc.2)
  | None =>
      (<[u := {| url := u; loading := true; data := None; error := None;
                 presetId := preset |}]> acc.1,
       (acc.2 ++ [u])%list)
  end.

(** The preview effect up to [setUrlPreviews(newPreviews)]: the next
    preview map and the URLs whose metadata is to be fetched. *)
Definition refreshPreviews (isTauri : bool) (extracted : list string)
    (old : gmap string UrlPreview) (preset : string)
  : gmap string UrlPreview * list string :=
  if negb isTauri || Nat.eqb (List.length extracted) 0 then (∅, [])
  else foldl (keep_or_start old preset) (∅, []) extracted.

(** ** SponsorBlock categories (components/AdvancedOptions.tsx) *)

Record AdvancedOptionsState := {
  formatId : string;
  preferredQuality : string;
  preferredFormat : string;
  filenameTemplate : string;
  subtitlesEnabled : bool;
  subtitlesLanguage : string;
  subtitlesEmbed : bool;
  subtitlesAutoCaptions : bool;
  sponsorBlockEnabled : bool;
  sponsorBlockMode : string;
  sponsorBlockCategories : list string;
  embedMetadata : bool;
  embedThumbnail : bool;
  writeInfoJson : bool;
  useProxy : bool;
  proxyUrl : string;
  rateLimit : string;
  retries : Q;
  remuxVideo : bool;
  preferredRemuxFormat : string
}.

Definition DEFAULT_OPTIONS : AdvancedOptionsState :=
  {| formatId := ""; preferredQuality := "best"; preferredFormat := "mp4";
     filenameTemplate := "%(title)s [%(id)s].%(ext)s";
     subtitlesEnabled := false; subtitlesLanguage := "en";
     subtitlesEmbed := false; subtitlesAutoCaptions := false;
     sponsorBlockEnabled := false; sponsorBlockMode := "remove";
     sponsorBlockCategories := ["sponsor"];
     embedMetadata := true; embedThumbnail := true; writeInfoJson := false;
     useProxy := false; proxyUrl := ""; rateLimit := ""; retries := 3%Q;
     remuxVideo := false; preferredRemuxFormat := "mp4" |}.

(** [categories.includes(c) ? categories.filter((x) => x !== c)
                            : [...categories, c]] *)
Definition toggled (category : string) (categories : list string)
  : list string :=
  if bool_decide (category ∈ categories)
  then filter (λ c, c ≠ category) categories
  else (categories ++ [category])%list.

Definition toggleSponsorBlockCategory (category : string)
    (prev : AdvancedOptionsState) : AdvancedOptionsState :=
  {| formatId := formatId prev; preferredQuality := preferredQuality prev;
     preferredFormat := preferredFormat prev;
     filenameTemplate := filenameTemplate prev;
     subtitlesEnabled := subtitlesEnabled prev;
     subtitlesLanguage := subtitlesLanguage prev;
     subtitlesEmbed := subtitlesEmbed prev;
     subtitlesAutoCaptions := subtitlesAutoCaptions prev;
     sponsorBlockEnabled := sponsorBlockEnabled prev;
     sponsorBlockMode := sponsorBlockMode prev;
     sponsorBlockCategories := toggled category (sponsorBlockCategories prev);
     embedMetadata := embedMetadata prev; embedThumbnail := embedThumbnail prev;
     writeInfoJson := writeInfoJson prev; useProxy := useProxy prev;
     proxyUrl := proxyUrl prev; rateLimit := rateLimit prev;
     retries := retries prev; remuxVideo := remuxVideo prev;
     preferredRemuxFormat := preferredRemuxFormat prev |}.

Definition sample_preview (u : string) : UrlPreview :=
  {| url := u; loading := false; data := None; error := None;
     presetId := "recommended_best" |}.

(** ** Submitting the form (src/app/page.tsx, [handleAddToQueue]) *)


Module AddUrls.
End AddUrls.














(** * Properties of the event handler *)

(** The invariant the specification states for a job record. *)
Definition final_path_iff_done (it : QueueItem) : Prop :=
  is_Some (final_path it) ↔ status it = "done".

Lemma map_item_lookup eid f (q : list QueueItem) i it :
  q !! i = Some it →
  map_item eid f q !! i = Some (if String.eqb (id it) eid then f it else it).
Proof. intros H. unfold map_item. rewrite list_lookup_fmap, H. reflexivity. Qed.

Lemma map_item_length eid f (q : list QueueItem) :
  List.length (map_item eid f q) = List.length q.
Proof. unfold map_item. apply length_fmap. Qed.

Lemma handleEvent_length e s :
  List.length (queue (handleEvent e s)) = List.length (queue s).
Proof. destruct e; simpl; rewrite ?map_item_length; reflexivity. Qed.

(** Every handler keeps the ids of the queue, position by position. *)
Lemma handleEvent_ids e s : id <$> queue (handleEvent e s) = id <$> queue s.
Proof.
  destruct e; simpl; try reflexivity; unfold map_item;
    rewrite <- list_fmap_compose; apply list_fmap_ext; intros ? it _; simpl;
    destruct (String.eqb (id it) eid); reflexivity.
Qed.

(** Looking up position [i] after an event that targets [eid]. *)
Ltac lookup_after H :=
  simpl; rewrite (map_item_lookup _ _ _ _ _ H), ?String.eqb_refl.

(** C10. An event leaves every item whose id differs from the event's id
    unchanged; an event whose id matches no item leaves the queue as it
    is. *)
Theorem handleEvent_frame (e : DownlinkEvent) (s : HookState) :
  (∀ i it, queue s !! i = Some it → event_id e ≠ Some (id it) →
     queue (handleEvent e s) !! i = Some it)
  ∧ ((∀ it, it ∈ queue s → event_id e ≠ Some (id it)) →
     queue (handleEvent e s) = queue s).
Proof.
  assert (Hone : ∀ i it, queue s !! i = Some it →
            event_id e ≠ Some (id it) →
            queue (handleEvent e s) !! i = Some it).
  { intros i it Hi Hne.
    destruct e; simpl in *; try exact Hi;
      rewrite (map_item_lookup _ _ _ _ _ Hi);
      (destruct (String.eqb_spec (id it) eid) as [Heq|]; [congruence|reflexivity]). }
  split; [exact Hone|].
  intros Hall. apply list_eq. intros i.
  destruct (queue s !! i) as [it|] eqn:Hi.
  - apply Hone; [exact Hi|]. apply Hall. eapply list_elem_of_lookup_2, Hi.
  - apply lookup_ge_None. rewrite handleEvent_length.
    apply lookup_ge_None, Hi.
Qed.

Lemma handleEvent_frame_witness :
  queue (handleEvent (DownloadCompleted "job-1" "/tmp/clip.mp4") sample_state)
    !! 1 = Some (sample_item "job-2" "queued")
  ∧ queue (handleEvent (DownloadFailed "job-9" "E_NET" "Network error" [])
             sample_state) = queue sample_state.
Proof.
  split.
  - apply (proj1 (handleEvent_frame _ sample_state)); [reflexivity|].
    simpl. intros [=].
  - apply (proj2 (handleEvent_frame _ sample_state)).
    intros it Hin. simpl in *.
    apply list_elem_of_In in Hin.
    destruct Hin as [<-|[<-|[]]]; simpl; intros [=].
Defined.

(** C1 (as the handlers are written). Handling DownloadStopped for the id of
    an item sets its status to stopped, clears speed_bps and eta_seconds and
    keeps progress_percent, bytes_downloaded and bytes_total; handling
    DownloadCanceled sets status to canceled and phase to Canceled and keeps
    every other field, the progress fields included. *)
Theorem stop_and_cancel_keep_progress (s : HookState) (i : nat) (it : QueueItem) :
  queue s !! i = Some it →
  (∃ it', queue (handleEvent (DownloadStopped (id it)) s) !! i = Some it'
     ∧ status it' = "stopped"
     ∧ progress_percent it' = progress_percent it
     ∧ bytes_downloaded it' = bytes_downloaded it
     ∧ bytes_total it' = bytes_total it
     ∧ speed_bps it' = None ∧ eta_seconds it' = None)
  ∧ (∃ it', queue (handleEvent (DownloadCanceled (id it)) s) !! i = Some it'
     ∧ it' = with_phase (Some "Canceled") (with_status "canceled" it)
     ∧ status it' = "canceled"
     ∧ progress_percent it' = progress_percent it
     ∧ bytes_downloaded it' = bytes_downloaded it
     ∧ bytes_total it' = bytes_total it
     ∧ speed_bps it' = speed_bps it ∧ eta_seconds it' = eta_seconds it).
Proof.
  intros Hi. split; eexists; (split; [lookup_after Hi; reflexivity|]);
    repeat split; reflexivity.
Qed.

Lemma stop_and_cancel_keep_progress_witness :
  (∃ it', queue (handleEvent (DownloadStopped "job-1") sample_state) !! 0
          = Some it'
     ∧ status it' = "stopped"
     ∧ progress_percent it' = Some 42%Q
     ∧ bytes_downloaded it' = Some 420%Q
     ∧ bytes_total it' = Some 1000%Q
     ∧ speed_bps it' = None ∧ eta_seconds it' = None)
  ∧ (∃ it', queue (handleEvent (DownloadCanceled "job-1") sample_state) !! 0
            = Some it'
     ∧ it' = with_phase (Some "Canceled")
               (with_status "canceled" (sample_item "job-1" "downloading"))
     ∧ status it' = "canceled"
     ∧ progress_percent it' = Some 42%Q
     ∧ bytes_downloaded it' = Some 420%Q
     ∧ bytes_total it' = Some 1000%Q
     ∧ speed_bps it' = Some 2048%Q ∧ eta_seconds it' = Some 7%Q).
Proof.
  apply (stop_and_cancel_keep_progress sample_state 0
           (sample_item "job-1" "downloading")).
  reflexivity.
Defined.

(** C1, the claim as stated, at a concrete queue: after DownloadCanceled the
    item still holds its last known percent and byte counts; nothing was
    reset or cleared. *)
Lemma cancel_does_not_clear_progress :
  ∃ it', queue (handleEvent (DownloadCanceled "job-1") sample_state) !! 0
         = Some it'
    ∧ progress_percent it' = Some 42%Q
    ∧ bytes_downloaded it' = Some 420%Q
    ∧ bytes_total it' = Some 1000%Q
    ∧ progress_percent it'
      = progress_percent (sample_item "job-1" "downloading")
    ∧ progress_percent it' ≠ None
    ∧ progress_percent it' ≠ Some 0%Q.
Proof.
  eexists. split; [reflexivity|]. simpl. repeat split; discriminate.
Qed.

(** C6. Handling DownloadCompleted for the id of an item gives the item
    status done, progress_percent 100 and the event's final_path. *)
Theorem completed_sets_done (s : HookState) (i : nat) (it : QueueItem)
    (final : string) :
  queue s !! i = Some it →
  ∃ it', queue (handleEvent (DownloadCompleted (id it) final) s) !! i = Some it'
    ∧ status it' = "done"
    ∧ progress_percent it' = Some 100%Q
    ∧ final_path it' = Some final.
Proof.
  intros Hi. eexists. split; [lookup_after Hi; reflexivity|].
  repeat split; reflexivity.
Qed.

Lemma completed_sets_done_witness :
  ∃ it', queue (handleEvent (DownloadCompleted "job-1" "/tmp/clip.mp4")
                  sample_state) !! 0 = Some it'
    ∧ status it' = "done"
    ∧ progress_percent it' = Some 100%Q
    ∧ final_path it' = Some "/tmp/clip.mp4".
Proof.
  apply (completed_sets_done sample_state 0
           (sample_item "job-1" "downloading") "/tmp/clip.mp4").
  reflexivity.
Defined.

(** C5. A DownloadFailed event carries an error code, a user message and a
    list of actions, which may be empty; handling it for the id of an item
    sets the item's status to failed and stores exactly the event's
    user_message as its error message: the resulting state does not depend
    on the error code or on the actions. *)
Theorem failed_stores_user_message (s : HookState) (i : nat) (it : QueueItem)
    (code message : string) (acts : list Action) :
  queue s !! i = Some it →
  (∃ it', queue (handleEvent (DownloadFailed (id it) code message acts) s) !! i
          = Some it'
     ∧ status it' = "failed"
     ∧ error_message it' = Some message
     ∧ it' = with_error_message (Some message)
               (with_phase (Some "Failed") (with_status "failed" it)))
  ∧ handleEvent (DownloadFailed (id it) code message acts) s
    = handleEvent (DownloadFailed (id it) "" message []) s.
Proof.
  intros Hi. split; [|reflexivity].
  eexists. split; [lookup_after Hi; reflexivity|].
  repeat split; reflexivity.
Qed.

Lemma failed_stores_user_message_witness :
  ∃ it', queue (handleEvent
                  (DownloadFailed "job-1" "AUTH_REQUIRED" "Sign in required"
                     [{| kind := "IMPORT_COOKIES";
                         label := "Import cookies from browser" |}])
                  sample_state) !! 0 = Some it'
    ∧ status it' = "failed"
    ∧ error_message it' = Some "Sign in required"
    ∧ it' = with_error_message (Some "Sign in required")
              (with_phase (Some "Failed")
                 (with_status "failed" (sample_item "job-1" "downloading"))).
Proof.
  apply (failed_stores_user_message sample_state 0
           (sample_item "job-1" "downloading")).
  reflexivity.
Defined.

(** C3 (as the handlers are written). Only DownloadCompleted writes
    final_path, and it writes status done with it; apart from it the one
    handler that can make a status done is DownloadProgress, which copies the
    event's lower-cased status and leaves final_path alone. *)
Theorem final_path_written_only_with_done (e : DownlinkEvent) (s : HookState)
    (i : nat) (it : QueueItem) :
  queue s !! i = Some it →
  ∃ it', queue (handleEvent e s) !! i = Some it'
    ∧ (final_path it' ≠ final_path it →
         status it' = "done"
         ∧ ∃ p, e = DownloadCompleted (id it) p ∧ final_path it' = Some p)
    ∧ (∀ p, e = DownloadCompleted (id it) p →
         status it' = "done" ∧ final_path it' = Some p)
    ∧ (status it' = "done" →
         status it = "done"
         ∨ (∃ p, e = DownloadCompleted (id it) p)
         ∨ (∃ st pr, e = DownloadProgress (id it) st pr
                     ∧ normalizeStatus st = "done"
                     ∧ final_path it' = final_path it)).
Proof.
  intros Hi.
  destruct e; simpl;
    try (exists it; split; [exact Hi|];
         split; [congruence|split; [discriminate|auto]]);
    rewrite (map_item_lookup _ _ _ _ _ Hi);
    (destruct (String.eqb_spec (id it) eid) as [Heq|Hne];
     [subst eid|]); eexists; (split; [reflexivity|]); simpl;
    (split; [try congruence|split; [try congruence|]]);
    try (intros Hd; first [discriminate Hd | left; exact Hd]).
  - (* DownloadProgress, same id *)
    intros Hd. right. right. eauto.
  - (* DownloadCompleted, same id *)
    intros _. split; [reflexivity|]. eauto.
  - intros p [= ->]. split; reflexivity.
  - intros _. right. left. eauto.
Qed.

Lemma final_path_written_only_with_done_witness :
  ∃ it', queue (handleEvent (DownloadCompleted "job-1" "/tmp/clip.mp4")
                  sample_state) !! 0 = Some it'
    ∧ status it' = "done" ∧ final_path it' = Some "/tmp/clip.mp4".
Proof.
  destruct (final_path_written_only_with_done
              (DownloadCompleted "job-1" "/tmp/clip.mp4") sample_state 0
              (sample_item "job-1" "downloading") eq_refl)
    as (it' & Hl & _ & Hc & _).
  exists it'. split; [exact Hl|]. apply (Hc "/tmp/clip.mp4"). reflexivity.
Defined.

(** C3, the claim as stated, at a concrete queue whose items all satisfy
    the invariant: a DownloadProgress event that reports the status DONE
    makes the item done while its final_path stays null. *)
Lemma progress_sets_done_without_final_path :
  Forall final_path_iff_done (queue sample_state)
  ∧ ∃ it', queue (handleEvent
                    (DownloadProgress "job-1" "DONE"
                       {| percent := Some 100%Q; p_bytes_downloaded := None;
                          p_bytes_total := None; p_speed_bps := None;
                          p_eta_seconds := None; p_phase := None |})
                    sample_state) !! 0 = Some it'
      ∧ status it' = "done" ∧ final_path it' = None
      ∧ ¬ final_path_iff_done it'.
Proof.
  split.
  - repeat constructor; simpl; try (intros [? [=]]); intros [=].
  - eexists. split; [reflexivity|]. simpl. repeat split.
    intros [_ H]. destruct (H eq_refl) as [? [=]].
Qed.

(** The other direction fails as well: no handler clears final_path, so a
    completed item that is started again is downloading with its
    final_path still set. *)
Example final_path_survives_restart :
  ∃ it', queue (handleEvents [DownloadCompleted "job-1" "/tmp/clip.mp4";
                              DownloadStarted "job-1"] sample_state) !! 0
         = Some it'
    ∧ status it' = "downloading" ∧ final_path it' = Some "/tmp/clip.mp4".
Proof. eexists. split; [reflexivity|]. split; reflexivity. Qed.

(** * Resuming a stopped job *)

Lemma buttons_of_stopped (it : QueueItem) :
  status it = "stopped" →
  buttons (page_props it)
  = (("Resume download", startDownload (id it))
     :: button (truthy (output_dir it)) "Open download folder"
          (handleOpenFolder (page_props it))
     ++ [("Remove from queue", removeDownload (id it))])%list.
Proof.
  intros Hst.
  unfold buttons, isQueued, isActive, isStopped, isFailed, isDone, isCanceled,
    handleStart, handleRemove.
  simpl. rewrite Hst. reflexivity.
Qed.

Lemma buttons_of_queued (it : QueueItem) :
  status it = "queued" →
  buttons (page_props it)
  = (("Start download", startDownload (id it))
     :: button (truthy (output_dir it)) "Open download folder"
          (handleOpenFolder (page_props it))
     ++ [("Remove from queue", removeDownload (id it))])%list.
Proof.
  intros Hst.
  unfold buttons, isQueued, isActive, isStopped, isFailed, isDone, isCanceled,
    handleStart, handleRemove.
  simpl. rewrite Hst. reflexivity.
Qed.

(** C7. The Resume button of a stopped item runs the start operation on the
    item's own id, the very handler the Start button of a queued item with
    that id runs, and nothing else but the queue reload; the DownloadStarted event that follows turns the
    item to downloading where it stands: the queue keeps its length and its
    ids. *)
Theorem resume_restarts_in_place (s : HookState) (i : nat) (it : QueueItem) :
  queue s !! i = Some it →
  status it = "stopped" →
  ("Resume download", handleStart (page_props it)) ∈ buttons (page_props it)
  ∧ (∀ click, ("Resume download", click) ∈ buttons (page_props it) →
       click = [invoke "start_download" (id it); refreshQueue])
  ∧ handleStart (page_props it) = [invoke "start_download" (id it); refreshQueue]
  ∧ (∀ it0, id it0 = id it → status it0 = "queued" →
       ("Start download", handleStart (page_props it))
       ∈ buttons (page_props it0))
  ∧ List.length (queue (handleEvent (DownloadStarted (id it)) s))
    = List.length (queue s)
  ∧ id <$> queue (handleEvent (DownloadStarted (id it)) s) = id <$> queue s
  ∧ ∃ it', queue (handleEvent (DownloadStarted (id it)) s) !! i = Some it'
      ∧ status it' = "downloading" ∧ id it' = id it
      ∧ it' = with_phase (Some "Starting…") (with_status "downloading" it).
Proof.
  intros Hi Hst.
  rewrite (buttons_of_stopped it Hst).
  split; [left|].
  split.
  { intros click Hin. apply list_elem_of_In in Hin.
    destruct Hin as [[= <-]|Hin]; [reflexivity|].
    apply in_app_or in Hin. destruct Hin as [Hin|[[=]|[]]].
    unfold button in Hin. destruct (truthy (output_dir it)); [|destruct Hin].
    destruct Hin as [[=]|[]]. }
  split; [reflexivity|].
  split.
  { intros it0 Hid Hq. rewrite (buttons_of_queued it0 Hq).
    unfold handleStart. simpl. rewrite Hid. left. }
  split; [apply handleEvent_length|].
  split; [apply handleEvent_ids|].
  eexists. split; [lookup_after Hi; reflexivity|].
  repeat split; reflexivity.
Qed.

Lemma resume_restarts_in_place_witness :
  let it := sample_item "job-1" "stopped" in
  let s := setQueue (λ _, [it; sample_item "job-2" "queued"]) sample_state in
  ("Resume download", handleStart (page_props it)) ∈ buttons (page_props it)
  ∧ (∀ click, ("Resume download", click) ∈ buttons (page_props it) →
       click = [invoke "start_download" "job-1"; refreshQueue])
  ∧ handleStart (page_props it) = [invoke "start_download" "job-1"; refreshQueue]
  ∧ (∀ it0, id it0 = "job-1" → status it0 = "queued" →
       ("Start download", handleStart (page_props it))
       ∈ buttons (page_props it0))
  ∧ List.length (queue (handleEvent (DownloadStarted "job-1") s)) = 2
  ∧ id <$> queue (handleEvent (DownloadStarted "job-1") s) = ["job-1"; "job-2"]
  ∧ ∃ it', queue (handleEvent (DownloadStarted "job-1") s) !! 0 = Some it'
      ∧ status it' = "downloading" ∧ id it' = "job-1"
      ∧ it' = with_phase (Some "Starting…") (with_status "downloading" it).
Proof.
  intros it s.
  apply (resume_restarts_in_place s 0 it); reflexivity.
Defined.

(** * Tool health and the start gate *)

(** C4 (as the type is declared). The tool status ranges over exactly the
    four values ok, outdated, missing and broken; the start gate spawns on ok
    and refuses every other status with a toolMissing error. *)
Theorem tool_status_values_and_start_gate :
  (∀ t, ToolStatus_literal t ∈ ["ok"; "outdated"; "missing"; "broken"])
  ∧ (∀ l, l ∈ ["ok"; "outdated"; "missing"; "broken"] →
       ∃ t, ToolStatus_literal t = l)
  ∧ (∀ t1 t2, ToolStatus_literal t1 = ToolStatus_literal t2 → t1 = t2)
  ∧ (∀ exe, Orchestrator.start ok exe = Orchestrator.Spawned exe)
  ∧ (∀ health exe, health ≠ ok →
       Orchestrator.start health exe
       = Orchestrator.Refused Orchestrator.toolMissing).
Proof.
  split; [intros []; simpl; set_solver|].
  split.
  { intros l Hl. apply list_elem_of_In in Hl. simpl in Hl.
    destruct Hl as [<-|[<-|[<-|[<-|[]]]]];
      [exists ok|exists outdated|exists missing|exists broken]; reflexivity. }
  split; [intros [] []; simpl; intros [=]; reflexivity|].
  split; [reflexivity|].
  intros [] exe Hne; [contradiction|reflexivity..].
Qed.

Lemma tool_status_values_and_start_gate_witness :
  (∃ t, ToolStatus_literal t = "broken")
  ∧ Orchestrator.start outdated "/opt/downlink/yt-dlp"
    = Orchestrator.Refused Orchestrator.toolMissing.
Proof.
  destruct tool_status_values_and_start_gate as (_ & Hsur & _ & _ & Hgate).
  split.
  - apply Hsur. set_solver.
  - apply Hgate. discriminate.
Defined.

(** C4, the claim as stated: the declared status has members outside
    ok, degraded and missing, and no member is called degraded. *)
Lemma tool_status_is_not_three_valued :
  (ToolStatus_literal outdated ∉ spec_health_values)
  ∧ (ToolStatus_literal broken ∉ spec_health_values)
  ∧ ¬ ∃ t, ToolStatus_literal t = "degraded".
Proof.
  unfold spec_health_values. simpl.
  split; [|split].
  - intros H. apply list_elem_of_In in H. simpl in H.
    destruct H as [[=]|[[=]|[[=]|[]]]].
  - intros H. apply list_elem_of_In in H. simpl in H.
    destruct H as [[=]|[[=]|[[=]|[]]]].
  - intros [[] [=]].
Qed.

(** * The concurrency bound of the scheduler *)

Module SchedulerFacts.
Import Scheduler.
Local Open Scope nat_scope.

Lemma count_active_app js1 js2 :
  count_active (js1 ++ js2)%list = count_active js1 + count_active js2.
Proof. induction js1 as [|j js1 IH]; simpl; [reflexivity|]. lia. Qed.

Lemma move_first_le_S p st js :
  count_active (move_first p st js) ≤ S (count_active js).
Proof.
  induction js as [|j js IH]; simpl; [lia|].
  destruct (p j); simpl.
  - destruct (is_active st), (is_active (job_status j)); lia.
  - lia.
Qed.

Lemma move_first_to_inactive p st js :
  is_active st = false →
  count_active (move_first p st js) ≤ count_active js.
Proof.
  intros Hst. induction js as [|j js IH]; simpl; [lia|].
  destruct (p j); simpl.
  - rewrite Hst. lia.
  - lia.
Qed.

Lemma move_first_from_active p st js :
  (∀ j, p j = true → is_active (job_status j) = true) →
  count_active (move_first p st js) ≤ count_active js.
Proof.
  intros Hp. induction js as [|j js IH]; simpl; [lia|].
  destruct (p j) eqn:Hpj; simpl.
  - rewrite (Hp j Hpj). destruct (is_active st); lia.
  - lia.
Qed.

Lemma admission_limit s : concurrency_limit (admission s) = concurrency_limit s.
Proof. unfold admission. destruct (_ <? _)%nat; reflexivity. Qed.

Lemma admission_bound s :
  active_count (admission s) ≤ Nat.max (active_count s) (concurrency_limit s).
Proof.
  unfold admission.
  destruct (Nat.ltb_spec (active_count s) (concurrency_limit s)) as [Hlt|Hge].
  - unfold active_count in *. simpl.
    pose proof (move_first_le_S (λ j, is_queued (job_status j)) downloading
                  (jobs s)). lia.
  - lia.
Qed.

Lemma iter_admission_limit n s :
  concurrency_limit (Nat.iter n admission s) = concurrency_limit s.
Proof.
  induction n as [|n IH]; simpl; [reflexivity|]. rewrite admission_limit. exact IH.
Qed.

Lemma iter_admission_bound n s :
  active_count (Nat.iter n admission s)
  ≤ Nat.max (active_count s) (concurrency_limit s).
Proof.
  induction n as [|n IH]; simpl; [lia|].
  pose proof (admission_bound (Nat.iter n admission s)) as Hb.
  rewrite iter_admission_limit in Hb. lia.
Qed.

Lemma stop_all_count js :
  count_active
    ((λ j, if is_active (job_status j) then set_status stopped j else j)
       <$> js) = 0.
Proof.
  induction js as [|j js IH]; simpl; [reflexivity|].
  destruct (is_active (job_status j)) eqn:Hj; simpl; rewrite ?Hj; exact IH.
Qed.

(** An admission after a change that does not add active jobs. *)
Lemma admission_after s s1 :
  concurrency_limit s1 = concurrency_limit s →
  active_count s1 ≤ active_count s →
  active_count (admission s1) ≤ Nat.max (active_count s) (concurrency_limit s).
Proof.
  intros Hl Hc. pose proof (admission_bound s1) as Hb. rewrite Hl in Hb. lia.
Qed.

Lemma step_limit r s :
  concurrency_limit (step r s)
  = match r with set_limit n => n | _ => concurrency_limit s end.
Proof.
  destruct r; simpl; rewrite ?admission_limit, ?iter_admission_limit; try reflexivity.
  destruct (_ <? _)%nat; reflexivity.
Qed.

Lemma andb_active j i (from : Status → bool) :
  (∀ st, from st = true → is_active st = true) →
  Nat.eqb (job_id j) i && from (job_status j) = true →
  is_active (job_status j) = true.
Proof. intros Hf [_ H]%andb_true_iff. apply Hf, H. Qed.

(** No step raises the number of active jobs above both its former value
    and the limit in force. *)
Lemma step_bound r s :
  active_count (step r s) ≤ Nat.max (active_count s) (concurrency_limit s).
Proof.
  destruct r; simpl.
  - apply admission_after; [reflexivity|].
    unfold active_count; simpl. rewrite count_active_app. simpl. lia.
  - apply admission_after; [reflexivity|].
    apply move_first_to_inactive; reflexivity.
  - apply admission_after; [reflexivity|].
    apply move_first_to_inactive; reflexivity.
  - destruct (Nat.ltb_spec (active_count s) (concurrency_limit s)); [|lia].
    unfold active_count in *; simpl.
    pose proof (move_first_le_S
      (λ j, Nat.eqb (job_id j) i && is_stopped (job_status j)) downloading
      (jobs s)). lia.
  - apply admission_after; [reflexivity|].
    apply move_first_to_inactive; reflexivity.
  - apply iter_admission_bound.
  - unfold active_count; simpl. rewrite stop_all_count. lia.
  - unfold active_count; simpl. lia.
  - unfold active_count; simpl.
    pose proof (move_first_from_active
      (λ j, Nat.eqb (job_id j) i && is_downloading (job_status j))
      postprocessing (jobs s)) as H.
    etransitivity; [apply H|lia].
    intros j Hj. eapply andb_active; [|exact Hj]. intros []; simpl; congruence.
  - apply admission_after; [reflexivity|].
    apply move_first_to_inactive; reflexivity.
  - apply admission_after; [reflexivity|].
    apply move_first_to_inactive; reflexivity.
Qed.

Lemma run_bounded rs s :
  active_count s ≤ concurrency_limit s →
  never_lowered_below_active rs s = true →
  active_count (run rs s) ≤ concurrency_limit (run rs s).
Proof.
  revert s. induction rs as [|r rs IH]; intros s Hinv Hok; [exact Hinv|].
  simpl in Hok. apply andb_true_iff in Hok as [Hr Hrs].
  change (run (r :: rs) s) with (run rs (step r s)).
  apply IH; [|exact Hrs].
  pose proof (step_bound r s) as Hb. rewrite step_limit.
  destruct r; try lia.
  apply Nat.leb_le in Hr. unfold active_count in *. simpl. exact Hr.
Qed.

(** The scenario of the specification: five submissions under limit 2
    start two jobs and leave three queued; a completion admits one more. *)
Example five_submissions_limit_two :
  job_status <$> jobs (run [submit 1; submit 2; submit 3; submit 4; submit 5]
                         (init 2))
  = [downloading; downloading; queued; queued; queued]
  ∧ job_status <$> jobs (run [submit 1; submit 2; submit 3; submit 4;
                              submit 5; on_exit_success 1] (init 2))
    = [done; downloading; downloading; queued; queued].
Proof. split; reflexivity. Qed.

(** C2 (as the specification lets the limit change). In every state the
    scheduler reaches from the empty job table by requests among which no
    set_limit puts the limit below the number of jobs active at that
    moment, the number of active jobs does not exceed the limit. *)
Theorem active_count_bounded (limit : nat) (rs : list Request) :
  never_lowered_below_active rs (init limit) = true →
  active_count (run rs (init limit))
  ≤ concurrency_limit (run rs (init limit)).
Proof.
  intros Hok. apply run_bounded; [|exact Hok].
  unfold active_count, init. simpl. lia.
Qed.

Lemma active_count_bounded_witness :
  active_count (run [submit 1; submit 2; submit 3; set_limit 3; stop 1;
                     resume 1; on_postprocessing 2; set_limit 3]
                  (init 2)) ≤ 3.
Proof.
  apply (active_count_bounded 2
           [submit 1; submit 2; submit 3; set_limit 3; stop 1; resume 1;
            on_postprocessing 2; set_limit 3]).
  reflexivity.
Defined.

(** C2, the claim as stated: with two jobs active under limit 2, lowering
    the limit to 1 preempts nothing, and the reached state has more
    active jobs than the configured limit. *)
Lemma lowering_the_limit_exceeds_it :
  active_count (run [submit 1; submit 2; set_limit 1] (init 2)) = 2
  ∧ concurrency_limit (run [submit 1; submit 2; set_limit 1] (init 2)) = 1
  ∧ ¬ active_count (run [submit 1; submit 2; set_limit 1] (init 2))
      ≤ concurrency_limit (run [submit 1; submit 2; set_limit 1] (init 2)).
Proof. vm_compute. repeat split. lia. Qed.

End SchedulerFacts.

(** * The event stream seen by a listener *)

Module EventBusFacts.
Import EventBus.
Local Open Scope nat_scope.
Local Open Scope list_scope.

(** The rate limiter only drops events: what it lets through is a
    subsequence of the emissions, in their order. *)
Lemma throttle_sublist interval last es :
  throttle interval last es `sublist_of` es.
Proof.
  revert last. induction es as [|e es IH]; intros last; simpl.
  - constructor.
  - destruct (is_terminal (event e)); [constructor; apply IH|].
    destruct last as [t|]; [|constructor; apply IH].
    destruct (at_ms e <? t + interval); constructor; apply IH.
Qed.

Lemma throttle_keeps_terminal interval last es e :
  e ∈ es → is_terminal (event e) = true → e ∈ throttle interval last es.
Proof.
  revert last. induction es as [|e' es IH]; intros last Hin Ht.
  - inversion Hin.
  - simpl. apply elem_of_cons in Hin as [->|Hin].
    + rewrite Ht. left.
    + destruct (is_terminal (event e')); [right; apply IH; assumption|].
      destruct last as [t|]; [|right; apply IH; assumption].
      destruct (at_ms e' <? t + interval);
        [|right]; apply IH; assumption.
Qed.

Lemma throttle_snoc_terminal interval last es t :
  is_terminal (event t) = true →
  throttle interval last (es ++ [t]) = throttle interval last es ++ [t].
Proof.
  intros Ht. revert last.
  induction es as [|e es IH]; intros last; simpl.
  - rewrite Ht. reflexivity.
  - destruct (is_terminal (event e)); [rewrite IH; reflexivity|].
    destruct last as [t0|]; [|rewrite IH; reflexivity].
    destruct (at_ms e <? t0 + interval); rewrite IH; reflexivity.
Qed.

(** Emission times that never decrease stay so after the limiter. *)
Lemma sublist_times_sorted (l k : list Emitted) :
  l `sublist_of` k →
  StronglySorted le (at_ms <$> k) → StronglySorted le (at_ms <$> l).
Proof.
  induction 1 as [|x l k Hs IH|x l k Hs IH]; intros Hk; simpl in *.
  - constructor.
  - apply StronglySorted_inv in Hk as [Hk Hx].
    constructor; [apply IH, Hk|].
    apply Forall_forall. intros y Hy.
    apply list_elem_of_fmap in Hy as (e & -> & He).
    rewrite Forall_forall in Hx. apply Hx.
    apply list_elem_of_fmap. exists e. split; [reflexivity|].
    eapply elem_of_sublist; eassumption.
  - apply StronglySorted_inv in Hk as [Hk _]. apply IH, Hk.
Qed.

(** C8. For the emissions of one job, progress events and then the
    terminal event, a listener receives a subsequence in emission order
    (so with emission times that never decrease); the terminal event is
    delivered, whatever the rate limit, and it is the last one; before it
    only progress events are delivered. *)
Theorem terminal_event_last_and_kept (interval : nat) (es : list Emitted)
    (t : Emitted) :
  one_attempt es t →
  delivered interval (es ++ [t]) `sublist_of` (es ++ [t])
  ∧ (StronglySorted le (at_ms <$> es ++ [t]) →
     StronglySorted le (at_ms <$> delivered interval (es ++ [t])))
  ∧ t ∈ delivered interval (es ++ [t])
  ∧ last (delivered interval (es ++ [t])) = Some t
  ∧ ∃ ps, delivered interval (es ++ [t]) = ps ++ [t]
      ∧ ps `sublist_of` es
      ∧ ∀ e, e ∈ ps → is_terminal (event e) = false.
Proof.
  intros [Ht Hes]. unfold delivered.
  split; [apply throttle_sublist|].
  split; [apply sublist_times_sorted, throttle_sublist|].
  split.
  { apply throttle_keeps_terminal; [|exact Ht].
    apply elem_of_app. right. left. }
  rewrite throttle_snoc_terminal by exact Ht.
  split; [apply last_snoc|].
  exists (throttle interval None es).
  split; [reflexivity|]. split; [apply throttle_sublist|].
  intros e He. apply Hes. eapply elem_of_sublist; [exact He|].
  apply throttle_sublist.
Qed.

Lemma terminal_event_last_and_kept_witness :
  delivered 200 (sample_emissions ++ [{| at_ms := 216; event := completed |}])
  = [ {| at_ms := 0; event := progress 1 |};
      {| at_ms := 210; event := progress 50 |};
      {| at_ms := 216; event := completed |} ]
  ∧ last (delivered 200
            (sample_emissions ++ [{| at_ms := 216; event := completed |}]))
    = Some {| at_ms := 216; event := completed |}.
Proof.
  split; [reflexivity|].
  apply (terminal_event_last_and_kept 200 sample_emissions
           {| at_ms := 216; event := completed |}).
  split; [reflexivity|].
  intros e He. apply list_elem_of_In in He. simpl in He.
  destruct He as [<-|[<-|[<-|[<-|[<-|[]]]]]]; reflexivity.
Defined.

End EventBusFacts.

(** * URL extraction *)

Section StringFacts.

Lemma append_cons (x : ascii) (a b : string) :
  String x a ++ b = String x (a ++ b).
Proof. reflexivity. Qed.

Lemma append_nil_l (b : string) : "" ++ b = b.
Proof. reflexivity. Qed.

Lemma append_assoc (a b c : string) : (a ++ b) ++ c = a ++ (b ++ c).
Proof.
  induction a as [|x a IH]; [reflexivity|].
  rewrite !append_cons, IH. reflexivity.
Qed.

Lemma append_nil_r (a : string) : a ++ "" = a.
Proof.
  induction a as [|x a IH]; [reflexivity|]. rewrite append_cons, IH. reflexivity.
Qed.

Lemma chars_append (a b : string) :
  list_ascii_of_string (a ++ b)
  = (list_ascii_of_string a ++ list_ascii_of_string b)%list.
Proof.
  induction a as [|x a IH]; [reflexivity|].
  rewrite append_cons. simpl. rewrite IH. reflexivity.
Qed.

Lemma strip_prefix_Some (lit s r : string) :
  strip_prefix lit s = Some r ↔ s = lit ++ r.
Proof.
  revert s. induction lit as [|a lit IH]; intros s; simpl.
  - split; [intros [= ->]; reflexivity|intros ->; reflexivity].
  - destruct s as [|b s]; [split; discriminate|].
    destruct (Ascii.eqb_spec a b) as [->|Hne].
    + rewrite IH, append_cons.
      split; [intros ->; reflexivity|intros [= ->]; reflexivity].
    + rewrite append_cons. split; [discriminate|intros [= <- _]; contradiction].
Qed.

Lemma match_scheme_Some (s scheme r : string) :
  match_scheme s = Some (scheme, r) →
  (scheme = "http://" ∨ scheme = "https://") ∧ s = scheme ++ r.
Proof.
  unfold match_scheme.
  destruct (strip_prefix "http" s) as [r0|] eqn:H0; [|discriminate].
  apply strip_prefix_Some in H0. subst s.
  destruct (strip_prefix "s" r0 ≫= strip_prefix "://") as [r1|] eqn:H1.
  - intros [= <- <-].
    destruct (strip_prefix "s" r0) as [r2|] eqn:H2; [|discriminate].
    change (strip_prefix "://" r2 = Some r1) in H1.
    apply strip_prefix_Some in H1, H2. subst. auto.
  - destruct (strip_prefix "://" r0) as [r1|] eqn:H2; [|discriminate].
    intros [= <- <-]. apply strip_prefix_Some in H2. subst. auto.
Qed.

Lemma span_nonspace_spec (s run rest : string) :
  span_nonspace s = (run, rest) →
  s = run ++ rest ∧ all_nonspace run ∧ at_boundary rest.
Proof.
  revert run rest. induction s as [|c s IH]; intros run rest; simpl.
  - intros [= <- <-]. repeat split; [intros c []%elem_of_nil|left; reflexivity].
  - destruct (is_space c) eqn:Hc.
    + intros [= <- <-]. repeat split; [intros c' []%elem_of_nil|].
      right. eauto.
    + destruct (span_nonspace s) as [run' rest'].
      intros [= <- <-]. destruct (IH _ _ eq_refl) as (-> & Hrun & Hb).
      repeat split; [|exact Hb].
      intros c' Hc'. simpl in Hc'. apply elem_of_cons in Hc' as [->|Hc'];
        [exact Hc|apply Hrun, Hc'].
Qed.

Lemma match_at_Some (s m : string) :
  match_at s = Some m →
  is_url_match m ∧ ∃ post, s = m ++ post ∧ at_boundary post.
Proof.
  unfold match_at.
  destruct (match_scheme s) as [[scheme r]|] eqn:Hs; [|discriminate].
  apply match_scheme_Some in Hs as [Hscheme ->].
  destruct (span_nonspace r) as [run rest] eqn:Hr.
  apply span_nonspace_spec in Hr as (-> & Hrun & Hb).
  destruct run as [|c run]; [discriminate|].
  intros [= <-]. split.
  - exists scheme, (String c run). repeat split; [exact Hscheme|discriminate|exact Hrun].
  - exists rest. rewrite append_assoc. split; [reflexivity|exact Hb].
Qed.

(** Every match of the scan is an anchored match at some position. *)
Lemma scan_elem (k : nat) (s m : string) :
  m ∈ scan k s → ∃ pre t, s = pre ++ t ∧ match_at t = Some m.
Proof.
  revert k. induction s as [|c s IH]; intros k; simpl.
  - intros []%elem_of_nil.
  - assert (Hrec : ∀ k', m ∈ scan k' s →
              ∃ pre t, String c s = pre ++ t ∧ match_at t = Some m).
    { intros k' Hin. destruct (IH k' Hin) as (pre & t & -> & Ht).
      exists (String c pre), t. split; [reflexivity|exact Ht]. }
    destruct k as [|k]; [|apply Hrec].
    destruct (match_at (String c s)) as [m'|] eqn:Hm; [|apply Hrec].
    intros [->|Hin]%elem_of_cons; [|eapply Hrec, Hin].
    exists "", (String c s). split; [reflexivity|exact Hm].
Qed.

Lemma all_space_cons (c : ascii) (s : string) :
  all_space (String c s) ↔ is_space c = true ∧ all_space s.
Proof.
  unfold all_space. simpl. split.
  - intros H. split; [apply H; left|intros c' Hc'; apply H; right; exact Hc'].
  - intros [Hc Hs] c' [->|Hc']%elem_of_cons; [exact Hc|apply Hs, Hc'].
Qed.

Lemma all_nonspace_cons (c : ascii) (s : string) :
  all_nonspace (String c s) ↔ is_space c = false ∧ all_nonspace s.
Proof.
  unfold all_nonspace. simpl. split.
  - intros H. split; [apply H; left|intros c' Hc'; apply H; right; exact Hc'].
  - intros [Hc Hs] c' [->|Hc']%elem_of_cons; [exact Hc|apply Hs, Hc'].
Qed.

Lemma trimStart_all_space (s : string) : all_space s → trimStart s = "".
Proof.
  induction s as [|c s IH]; [reflexivity|].
  intros [Hc Hs]%all_space_cons. simpl. rewrite Hc. apply IH, Hs.
Qed.

Lemma all_space_trimStart (s : string) : all_space (trimStart s) → all_space s.
Proof.
  induction s as [|c s IH]; [intros H; exact H|].
  simpl. destruct (is_space c) eqn:Hc; [|intros H; exact H].
  intros H. apply all_space_cons. split; [exact Hc|apply IH, H].
Qed.

Lemma trimEnd_empty (s : string) : trimEnd s = "" → all_space s.
Proof.
  induction s as [|c s IH]; [intros _ c' []%elem_of_nil|].
  simpl. destruct (trimEnd s) as [|c' t]; [|discriminate].
  destruct (is_space c) eqn:Hc; [|discriminate].
  intros _. apply all_space_cons. split; [exact Hc|apply IH; reflexivity].
Qed.

(** [trim] leaves nothing exactly when the text is empty or only spaces. *)
Lemma trim_empty (s : string) : trim s = "" ↔ all_space s.
Proof.
  unfold trim. split.
  - intros H. apply all_space_trimStart, trimEnd_empty, H.
  - intros H. rewrite (trimStart_all_space s H). reflexivity.
Qed.

Lemma match_at_space (c : ascii) (s : string) :
  is_space c = true → match_at (String c s) = None.
Proof.
  intros Hc. unfold match_at, match_scheme.
  change (strip_prefix "http" (String c s))
    with (if Ascii.eqb "h" c then strip_prefix "ttp" s else None).
  destruct (Ascii.eqb_spec "h" c) as [<-|_]; [discriminate Hc|reflexivity].
Qed.

Lemma scan_all_space (k : nat) (s : string) : all_space s → scan k s = [].
Proof.
  revert k. induction s as [|c s IH]; intros k; [reflexivity|].
  intros [Hc Hs]%all_space_cons. simpl.
  destruct k; [rewrite (match_at_space c s Hc)|]; apply IH, Hs.
Qed.

Lemma trimEnd_nonspace (run : string) : all_nonspace run → trimEnd run = run.
Proof.
  induction run as [|c r IH]; [reflexivity|].
  intros [Hc Hr]%all_nonspace_cons. simpl. rewrite (IH Hr).
  destruct r; [rewrite Hc|]; reflexivity.
Qed.

Lemma trimEnd_append (a run : string) :
  run ≠ "" → trimEnd run = run → trimEnd (a ++ run) = a ++ run.
Proof.
  intros Hne Hrun. induction a as [|x a IH]; [exact Hrun|].
  rewrite append_cons. simpl. rewrite IH.
  destruct (a ++ run) eqn:Happ; [|reflexivity].
  destruct a; [|discriminate Happ]. contradiction.
Qed.

(** A match has no space at either end, so [m.trim()] is [m]. *)
Lemma trim_url_match (m : string) : is_url_match m → trim m = m.
Proof.
  intros (scheme & run & -> & Hscheme & Hne & Hrun).
  unfold trim.
  assert (Hstart : trimStart (scheme ++ run) = scheme ++ run)
    by (destruct Hscheme as [->| ->]; reflexivity).
  rewrite Hstart. apply trimEnd_append; [exact Hne|].
  apply trimEnd_nonspace, Hrun.
Qed.

Lemma scan_trim (k : nat) (s : string) : trim <$> scan k s = scan k s.
Proof.
  transitivity (Datatypes.id <$> scan k s); [|apply list_fmap_id].
  apply list_fmap_ext. intros i m Hm.
  apply list_elem_of_lookup_2, scan_elem in Hm as (pre & t & _ & Ht).
  apply match_at_Some in Ht as [Hm _]. apply trim_url_match, Hm.
Qed.

End StringFacts.

Section FirstOccurrences.

Local Open Scope list_scope.

Lemma filter_not_in_nil (l : list string) : filter (λ u, u ∉ @nil string) l = l.
Proof.
  induction l as [|x l IH]; [reflexivity|].
  rewrite filter_cons_True by apply not_elem_of_nil. rewrite IH. reflexivity.
Qed.

Lemma first_occurrences_elem (l : list string) (x : string) :
  x ∈ first_occurrences l ↔ x ∈ l.
Proof.
  induction l as [|y l IH]; [reflexivity|]. simpl.
  rewrite !elem_of_cons, list_elem_of_filter, IH.
  destruct (decide (x = y)) as [Heq|Hne]; tauto.
Qed.

Lemma first_occurrences_NoDup (l : list string) : NoDup (first_occurrences l).
Proof.
  induction l as [|y l IH]; simpl; [constructor|].
  apply NoDup_cons. split; [|apply NoDup_filter, IH].
  rewrite list_elem_of_filter. intros [Hne _]. apply Hne. reflexivity.
Qed.

Lemma first_occurrences_sublist (l : list string) :
  first_occurrences l `sublist_of` l.
Proof.
  induction l as [|y l IH]; simpl; [constructor|].
  constructor. etransitivity; [apply sublist_filter|exact IH].
Qed.

Lemma first_occurrences_app (l1 l2 : list string) :
  first_occurrences (l1 ++ l2)
  = first_occurrences l1 ++ filter (λ u, u ∉ l1) (first_occurrences l2).
Proof.
  induction l1 as [|x l1 IH]; simpl; [rewrite filter_not_in_nil; reflexivity|].
  rewrite IH, filter_app, list_filter_filter. f_equal. f_equal.
  apply list_filter_iff. intros y. rewrite not_elem_of_cons. tauto.
Qed.

(** The order of the result is the order of first occurrence: when [u]
    stands before [v] in the result, [u] occurs in [l] at a place before
    which neither [u] nor [v] occurs. *)
Lemma first_occurrences_order (l : list string) (i j : nat) (u v : string) :
  first_occurrences l !! i = Some u →
  first_occurrences l !! j = Some v →
  (i < j)%nat →
  ∃ l1 l2, l = l1 ++ u :: l2 ∧ (u ∉ l1) ∧ (v ∉ l1) ∧ v ≠ u.
Proof.
  intros Hi Hj Hlt.
  assert (Hu : u ∈ l)
    by (apply first_occurrences_elem; eapply list_elem_of_lookup_2, Hi).
  apply list_elem_of_split_l in Hu as (l1 & l2 & -> & Hu1).
  exists l1, l2. split; [reflexivity|]. split; [exact Hu1|].
  rewrite first_occurrences_app in Hi, Hj.
  pose proof (first_occurrences_NoDup (l1 ++ u :: l2)) as Hnd.
  rewrite first_occurrences_app in Hnd.
  simpl in Hi, Hj, Hnd. rewrite filter_cons_True in Hi, Hj, Hnd by exact Hu1.
  assert (Hpos : (first_occurrences l1 ++
                  u :: filter (λ u0, u0 ∉ l1)
                         (filter (λ y, y ≠ u) (first_occurrences l2)))
                 !! List.length (first_occurrences l1) = Some u).
  { rewrite lookup_app_r by lia. rewrite Nat.sub_diag. reflexivity. }
  pose proof (NoDup_lookup _ _ _ _ Hnd Hi Hpos) as ->.
  rewrite lookup_app_r in Hj by lia.
  destruct (j - List.length (first_occurrences l1))%nat as [|n] eqn:Hn; [lia|].
  simpl in Hj. apply list_elem_of_lookup_2 in Hj.
  rewrite !list_elem_of_filter in Hj. tauto.
Qed.

(** The loop over the matches, started in any state whose [seen] holds
    exactly the elements of [out]. *)
Lemma push_unseen_loop (ms : list string) (seen : gset string)
    (out : list string) :
  (∀ u, u ∈ seen ↔ u ∈ out) →
  (foldl push_unseen (seen, out) ms).2
  = out ++ filter (λ u, u ∉ out) (first_occurrences (trim <$> ms)).
Proof.
  revert seen out. induction ms as [|m ms IH]; intros seen out Hseen.
  - simpl. rewrite app_nil_r. reflexivity.
  - simpl. unfold push_unseen at 2. simpl.
    destruct (decide (trim m ∈ seen)) as [Hin|Hnin].
    + rewrite (IH seen out Hseen).
      rewrite filter_cons_False by (intros Hn; apply Hn, Hseen, Hin).
      rewrite list_filter_filter_l; [reflexivity|].
      intros x Hx ->. apply Hx, Hseen, Hin.
    + rewrite (IH ({[trim m]} ∪ seen) (out ++ [trim m])).
      2:{ intros u. rewrite elem_of_union, elem_of_singleton, elem_of_app,
            list_elem_of_singleton, Hseen. tauto. }
      rewrite filter_cons_True by (intros Hn; apply Hnin, Hseen, Hn).
      rewrite <- app_assoc. simpl. f_equal. f_equal.
      rewrite list_filter_filter. apply list_filter_iff. intros x.
      rewrite not_elem_of_app, list_elem_of_singleton. tauto.
Qed.

End FirstOccurrences.

Section Extraction.

Lemma match_scheme_literal (scheme r : string) :
  scheme = "http://" ∨ scheme = "https://" →
  match_scheme (scheme ++ r) = Some (scheme, r).
Proof. intros [->| ->]; reflexivity. Qed.

(** The pattern matches at the start of any text that begins with a
    string of the pattern's language. *)
Lemma match_at_url (u post : string) :
  is_url_match u → ∃ m, match_at (u ++ post) = Some m.
Proof.
  intros (scheme & run & -> & Hscheme & Hne & Hrun).
  unfold match_at. rewrite append_assoc, (match_scheme_literal _ _ Hscheme).
  destruct run as [|c run]; [contradiction|].
  apply all_nonspace_cons in Hrun as [Hc _].
  rewrite append_cons. simpl. rewrite Hc.
  destruct (span_nonspace (run ++ post)) as [run' rest]. eauto.
Qed.

Lemma scan_finds (pre t m : string) :
  match_at t = Some m → scan 0 (pre ++ t) ≠ [].
Proof.
  intros Hm. induction pre as [|x pre IH].
  - rewrite append_nil_l. destruct t as [|c t]; [discriminate Hm|].
    simpl. rewrite Hm. discriminate.
  - rewrite append_cons. simpl.
    destruct (match_at (String x (pre ++ t))); [discriminate|exact IH].
Qed.

Lemma url_match_prefix (u : string) :
  is_url_match u →
  String.prefix "http://" u = true ∨ String.prefix "https://" u = true.
Proof.
  intros (scheme & run & -> & Hscheme & Hne & _).
  destruct run as [|c run]; [contradiction|].
  destruct Hscheme as [->| ->]; [left|right]; reflexivity.
Qed.

(** The guard on the trimmed input changes nothing: the loop over the
    matches decides the result. *)
Lemma extractedUrls_loop (urlInput : string) :
  extractedUrls urlInput = first_occurrences (scan 0 urlInput).
Proof.
  unfold extractedUrls, truthy. rewrite negb_involutive.
  destruct (String.eqb_spec (trim urlInput) "") as [Hempty|_].
  - apply trim_empty in Hempty. rewrite (scan_all_space 0 _ Hempty). reflexivity.
  - assert (Hms : default [] (match_g urlInput) = scan 0 urlInput)
      by (unfold match_g; destruct (scan 0 urlInput); reflexivity).
    rewrite Hms, push_unseen_loop by set_solver.
    rewrite scan_trim, filter_not_in_nil. reflexivity.
Qed.

(** C9. The extraction returns the matches of the pattern in the input,
    each once, in the order of first occurrence: the result has no
    duplicates, holds exactly the matches of the scan and keeps their order;
    every element is a maximal substring of the input made of http:// or
    https:// and a non-empty run of non-space characters, so it starts with
    one of the two schemes; an input that is empty or only spaces gives the
    empty list; and an input that contains a string of the pattern gives a
    non-empty list. *)
Theorem extractedUrls_spec (urlInput : string) :
  extractedUrls urlInput = first_occurrences (scan 0 urlInput)
  ∧ NoDup (extractedUrls urlInput)
  ∧ (∀ u, u ∈ extractedUrls urlInput ↔ u ∈ scan 0 urlInput)
  ∧ extractedUrls urlInput `sublist_of` scan 0 urlInput
  ∧ (∀ i j u v,
       extractedUrls urlInput !! i = Some u →
       extractedUrls urlInput !! j = Some v →
       (i < j)%nat →
       ∃ l1 l2, scan 0 urlInput = (l1 ++ u :: l2)%list
                ∧ (u ∉ l1) ∧ (v ∉ l1) ∧ v ≠ u)
  ∧ (∀ u, u ∈ extractedUrls urlInput →
       is_url_match u
       ∧ (∃ pre post, urlInput = pre ++ u ++ post ∧ at_boundary post)
       ∧ (String.prefix "http://" u = true
          ∨ String.prefix "https://" u = true))
  ∧ (all_space urlInput → extractedUrls urlInput = [])
  ∧ ((∃ u, is_url_match u ∧ is_substring u urlInput) →
     extractedUrls urlInput ≠ []).
Proof.
  rewrite extractedUrls_loop.
  split; [reflexivity|].
  split; [apply first_occurrences_NoDup|].
  split; [apply first_occurrences_elem|].
  split; [apply first_occurrences_sublist|].
  split; [apply first_occurrences_order|].
  split; [|split].
  - intros u Hu. apply first_occurrences_elem, scan_elem in Hu
      as (pre & t & -> & Ht).
    apply match_at_Some in Ht as (Hurl & post & -> & Hb).
    split; [exact Hurl|]. split; [eauto|apply url_match_prefix, Hurl].
  - intros Hsp. rewrite (scan_all_space 0 _ Hsp). reflexivity.
  - intros (u & Hurl & pre & post & ->) Hnil.
    destruct (match_at_url u post Hurl) as [m Hm].
    apply (scan_finds pre _ _ Hm).
    destruct (scan 0 (pre ++ u ++ post)); [reflexivity|discriminate Hnil].
Qed.

Lemma extractedUrls_spec_witness :
  extractedUrls sample_input = ["http://a.b/c"; "https://x.y,"]
  ∧ (String.prefix "http://" "https://x.y," = true
     ∨ String.prefix "https://" "https://x.y," = true)
  ∧ extractedUrls "   " = []
  ∧ extractedUrls sample_input ≠ [].
Proof.
  split; [reflexivity|].
  split.
  { apply (extractedUrls_spec sample_input). vm_compute. set_solver. }
  split.
  { apply (extractedUrls_spec "   ").
    intros c Hc. apply list_elem_of_In in Hc. simpl in Hc.
    destruct Hc as [<-|[<-|[<-|[]]]]; reflexivity. }
  apply (extractedUrls_spec sample_input).
  exists "http://a.b/c". split.
  - exists "http://", "a.b/c". repeat split; [left; reflexivity|discriminate|].
    intros c Hc. apply list_elem_of_In in Hc. simpl in Hc.
    destruct Hc as [<-|[<-|[<-|[<-|[<-|[]]]]]]; reflexivity.
  - exists "see ", " and https://x.y, then http://a.b/c again". reflexivity.
Defined.

End Extraction.

(** * Further properties of the event handler *)

Section HandlerAlgebra.

Local Open Scope list_scope.

Lemma map_item_compose (eid : string) (f g : QueueItem → QueueItem)
    (q : list QueueItem) :
  (∀ it, id (f it) = id it) →
  map_item eid g (map_item eid f q) = map_item eid (λ it, g (f it)) q.
Proof.
  intros Hf. unfold map_item. rewrite <- list_fmap_compose.
  apply list_fmap_ext. intros _ it _. simpl.
  destruct (String.eqb (id it) eid) eqn:He; [|rewrite He; reflexivity].
  rewrite Hf, He. reflexivity.
Qed.

Lemma map_item_ext (eid : string) (f g : QueueItem → QueueItem)
    (q : list QueueItem) :
  (∀ it, f it = g it) → map_item eid f q = map_item eid g q.
Proof.
  intros Hfg. unfold map_item. apply list_fmap_ext. intros _ it _. simpl.
  rewrite Hfg. reflexivity.
Qed.

Lemma map_item_commute (a b : string) (f g : QueueItem → QueueItem)
    (q : list QueueItem) :
  a ≠ b →
  (∀ it, id (f it) = id it) → (∀ it, id (g it) = id it) →
  map_item a f (map_item b g q) = map_item b g (map_item a f q).
Proof.
  intros Hab Hf Hg. unfold map_item. rewrite <- !list_fmap_compose.
  apply list_fmap_ext. intros _ it _. simpl.
  destruct (String.eqb_spec (id it) a) as [Ha|Ha],
           (String.eqb_spec (id it) b) as [Hb|Hb];
    rewrite ?Hf, ?Hg;
    repeat match goal with
      | |- context [String.eqb ?x ?y] =>
          destruct (String.eqb_spec x y); try congruence
      end.
Qed.

Lemma nullish_twice {A} (a b : option A) :
  nullish a (nullish a b) = nullish a b.
Proof. destruct a; reflexivity. Qed.

(** X1. Events never add, remove or reorder records: after any sequence
    of events the queue has the same ids at the same positions, and the
    history is untouched. *)
Theorem handleEvents_keep_records (events : list DownlinkEvent) (s : HookState) :
  id <$> queue (handleEvents events s) = id <$> queue s
  ∧ List.length (queue (handleEvents events s)) = List.length (queue s)
  ∧ history (handleEvents events s) = history s.
Proof.
  revert s. induction events as [|e events IH]; intros s; [repeat split|].
  change (handleEvents (e :: events) s)
    with (handleEvents events (handleEvent e s)).
  destruct (IH (handleEvent e s)) as (Hids & Hlen & Hhist).
  rewrite Hids, Hlen, Hhist, handleEvent_ids, handleEvent_length.
  repeat split. destruct e; reflexivity.
Qed.

(** X2. Handling an event twice is the same as handling it once. *)
Theorem handleEvent_idempotent (e : DownlinkEvent) (s : HookState) :
  handleEvent e (handleEvent e s) = handleEvent e s.
Proof.
  destruct e; unfold handleEvent, setQueue;
    cbn [queue history isReady appVersion ytDlpVersion ffmpegVersion];
    try reflexivity; f_equal;
    (rewrite map_item_compose by (intros it; reflexivity));
    apply map_item_ext; intros it; destruct it; simpl;
    rewrite ?nullish_twice; reflexivity.
Qed.

(** X3. Events about different jobs commute, and so do an event about a
    job and an event that carries no job id: the state reached does not
    depend on how such events interleave. *)
Theorem handleEvent_commute (e1 e2 : DownlinkEvent) (s : HookState) :
  event_id e1 ≠ event_id e2 →
  handleEvent e1 (handleEvent e2 s) = handleEvent e2 (handleEvent e1 s).
Proof.
  intros Hne.
  destruct e1, e2; simpl in Hne; try congruence; try reflexivity;
    unfold handleEvent, setQueue; simpl; f_equal;
    apply map_item_commute; try (intros it; reflexivity); congruence.
Qed.

Lemma handleEvent_commute_witness :
  handleEvent (DownloadStopped "job-1")
    (handleEvent (DownloadStarted "job-2") sample_state)
  = handleEvent (DownloadStarted "job-2")
      (handleEvent (DownloadStopped "job-1") sample_state).
Proof. apply handleEvent_commute. simpl. intros [=]. Defined.

Lemma handleEvent_fixed_fields_step (e : DownlinkEvent) (s : HookState)
    (i : nat) (it : QueueItem) :
  queue s !! i = Some it →
  ∃ it', queue (handleEvent e s) !! i = Some it'
    ∧ id it' = id it ∧ source_url it' = source_url it
    ∧ preset_id it' = preset_id it ∧ output_dir it' = output_dir it
    ∧ bytes_downloaded it' = bytes_downloaded it
    ∧ bytes_total it' = bytes_total it.
Proof.
  intros Hi.
  destruct e; simpl; try (exists it; repeat split; exact Hi);
    rewrite (map_item_lookup _ _ _ _ _ Hi);
    destruct (String.eqb (id it) eid); eexists; repeat split.
Qed.

(** X4. No event rewrites an item's id, source URL, preset, output
    directory or byte counts: bytes_downloaded and bytes_total keep the
    values the queue was loaded with, progress events included. *)
Theorem handleEvents_fixed_fields (events : list DownlinkEvent) (s : HookState)
    (i : nat) (it : QueueItem) :
  queue s !! i = Some it →
  ∃ it', queue (handleEvents events s) !! i = Some it'
    ∧ id it' = id it ∧ source_url it' = source_url it
    ∧ preset_id it' = preset_id it ∧ output_dir it' = output_dir it
    ∧ bytes_downloaded it' = bytes_downloaded it
    ∧ bytes_total it' = bytes_total it.
Proof.
  revert s it. induction events as [|e events IH]; intros s it Hi.
  - exists it. repeat split. exact Hi.
  - change (handleEvents (e :: events) s)
      with (handleEvents events (handleEvent e s)).
    destruct (handleEvent_fixed_fields_step e s i it Hi)
      as (it1 & H1 & E1 & E2 & E3 & E4 & E5 & E6).
    destruct (IH _ _ H1) as (it2 & H2 & F1 & F2 & F3 & F4 & F5 & F6).
    exists it2. repeat split; congruence.
Qed.

Lemma handleEvents_fixed_fields_witness :
  ∃ it', queue (handleEvents
                  [DownloadProgress "job-1" "DOWNLOADING"
                     {| percent := Some 80%Q;
                        p_bytes_downloaded := Some 800%Q;
                        p_bytes_total := Some 1000%Q;
                        p_speed_bps := None; p_eta_seconds := None;
                        p_phase := None |};
                   DownloadCompleted "job-1" "/tmp/clip.mp4"]
                  sample_state) !! 0%nat = Some it'
    ∧ id it' = "job-1" ∧ source_url it' = "https://example.org/v"
    ∧ preset_id it' = "recommended_best" ∧ output_dir it' = "/tmp"
    ∧ bytes_downloaded it' = Some 420%Q
    ∧ bytes_total it' = Some 1000%Q.
Proof.
  apply (handleEvents_fixed_fields _ sample_state 0
           (sample_item "job-1" "downloading")).
  reflexivity.
Defined.

End HandlerAlgebra.

Section HandlerFields.

(** X5. A MetadataReady event fills in title, uploader, thumbnail and
    duration from the event where the event has them and keeps the old
    value where it has not, so no known metadata is ever erased; the
    status, phase, progress and result fields of the item stay as they
    were. *)
Theorem metadata_never_erased (s : HookState) (i : nat) (it : QueueItem)
    (info : MetadataInfo) :
  queue s !! i = Some it →
  ∃ it', queue (handleEvent (MetadataReady (id it) info) s) !! i = Some it'
    ∧ (is_Some (title it) → is_Some (title it'))
    ∧ (is_Some (uploader it) → is_Some (uploader it'))
    ∧ (is_Some (thumbnail_url it) → is_Some (thumbnail_url it'))
    ∧ (is_Some (duration_seconds it) → is_Some (duration_seconds it'))
    ∧ (∀ t, i_title info = Some t → title it' = Some t)
    ∧ (∀ u, i_uploader info = Some u → uploader it' = Some u)
    ∧ (∀ u, i_thumbnail_url info = Some u → thumbnail_url it' = Some u)
    ∧ (∀ d, i_duration_seconds info = Some d → duration_seconds it' = Some d)
    ∧ (i_title info = None → title it' = title it)
    ∧ (i_uploader info = None → uploader it' = uploader it)
    ∧ (i_thumbnail_url info = None → thumbnail_url it' = thumbnail_url it)
    ∧ (i_duration_seconds info = None →
       duration_seconds it' = duration_seconds it)
    ∧ status it' = status it ∧ phase it' = phase it
    ∧ progress_percent it' = progress_percent it
    ∧ speed_bps it' = speed_bps it ∧ eta_seconds it' = eta_seconds it
    ∧ final_path it' = final_path it
    ∧ error_message it' = error_message it.
Proof.
  intros Hi. eexists. split; [lookup_after Hi; reflexivity|]. simpl.
  repeat split; try (intros x Hx; rewrite Hx; reflexivity);
    try (intros Hx; rewrite Hx; reflexivity);
    intros [x Hx]; rewrite Hx;
    match goal with |- is_Some (nullish ?a _) => destruct a end; eauto.
Qed.

Lemma metadata_never_erased_witness :
  ∃ it', queue (handleEvent
                  (MetadataReady "job-1"
                     {| i_title := None; i_uploader := Some "Channel";
                        i_duration_seconds := None; i_thumbnail_url := None;
                        i_webpage_url := Some "https://example.org/v" |})
                  sample_state) !! 0%nat = Some it'
    ∧ title it' = Some "Clip" ∧ uploader it' = Some "Channel"
    ∧ duration_seconds it' = Some 90%Q ∧ status it' = "downloading".
Proof.
  destruct (metadata_never_erased sample_state 0
              (sample_item "job-1" "downloading")
              {| i_title := None; i_uploader := Some "Channel";
                 i_duration_seconds := None; i_thumbnail_url := None;
                 i_webpage_url := Some "https://example.org/v" |} eq_refl)
    as (it' & Hl & _ & _ & _ & _ & _ & Hu & _ & _ & Ht & _ & _ & Hd & Hs & _).
  exists it'. split; [exact Hl|].
  split; [apply Ht; reflexivity|]. split; [apply Hu; reflexivity|].
  split; [apply Hd; reflexivity|exact Hs].
Defined.

(** X6. A DownloadProgress event overwrites status, phase, percent, speed
    and eta, so it wipes out what an earlier DownloadStarted,
    DownloadProgress, DownloadPostProcessing, DownloadStopped or
    DownloadCanceled event for the same job had written: a progress event
    that arrives after the stop puts the item back to the status it
    carries. *)
Theorem progress_overrides_earlier (eid st : string) (p : Progress)
    (s : HookState) :
  let late := handleEvent (DownloadProgress eid st p) in
  late (handleEvent (DownloadStarted eid) s) = late s
  ∧ (∀ st0 p0, late (handleEvent (DownloadProgress eid st0 p0) s) = late s)
  ∧ (∀ step, late (handleEvent (DownloadPostProcessing eid step) s) = late s)
  ∧ late (handleEvent (DownloadStopped eid) s) = late s
  ∧ late (handleEvent (DownloadCanceled eid) s) = late s.
Proof.
  cbv zeta. unfold handleEvent, setQueue.
  cbn [queue history isReady appVersion ytDlpVersion ffmpegVersion].
  repeat split; intros; f_equal;
    (rewrite map_item_compose by (intros it; reflexivity));
    apply map_item_ext; intros it; destruct it; reflexivity.
Qed.

End HandlerFields.

(** * The item component *)

Section ItemComponent.

Local Open Scope list_scope.

(** Case analysis on every comparison of a status with a literal. *)
Ltac status_cases :=
  repeat match goal with
    | |- context [String.eqb (status ?x) ?l] =>
        destruct (String.eqb_spec (status x) l) as [->|?]; simpl
    end.

Lemma elem_of_button (cond : bool) (title t : string) (click c : list Effect) :
  (t, c) ∈ button cond title click ↔ cond = true ∧ t = title ∧ c = click.
Proof.
  unfold button. destruct cond.
  - rewrite list_elem_of_singleton. split.
    + intros [= -> ->]. auto.
    + intros (_ & -> & ->). reflexivity.
  - split; [intros []%elem_of_nil|intros ([=] & _)].
Qed.

Lemma literal_cases (st : string) :
  st ∈ DownloadStatus_literals ↔
  st = "queued" ∨ st = "fetching" ∨ st = "ready" ∨ st = "downloading"
  ∨ st = "postprocessing" ∨ st = "stopped" ∨ st = "done" ∨ st = "failed"
  ∨ st = "canceled".
Proof.
  unfold DownloadStatus_literals.
  rewrite !elem_of_cons, elem_of_nil. tauto.
Qed.

(** X7. The six status flags of the component exclude one another: at most
    one holds for any status, and exactly one holds precisely when the
    status is one of the nine members of DownloadStatus. *)
Theorem status_flags_partition (props : QueueItemProps) :
  (flags_set props ≤ 1)%nat
  ∧ (status (item props) ∈ DownloadStatus_literals ↔ flags_set props = 1%nat).
Proof.
  rewrite literal_cases.
  unfold flags_set, isQueued, isActive, isStopped, isFailed, isDone, isCanceled.
  status_cases; (split; [vm_compute; lia|]); split;
    try (intros _; reflexivity); try (intros [=]); tauto.
Qed.

Lemma offers_iff (props : QueueItemProps) (t : string) :
  offers props t ↔
  (isQueued props = true ∧ t = "Start download")
  ∨ (isActive props = true ∧ t = "Stop download")
  ∨ (isStopped props = true ∧ t = "Resume download")
  ∨ (isFailed props = true ∧ t = "Retry download")
  ∨ (isDone props && truthy_opt (final_path (item props)) = true
     ∧ t = "Open file")
  ∨ (isDone props || truthy (output_dir (item props)) = true
     ∧ t = (if isDone props then "Reveal in folder"
            else "Open download folder"))
  ∨ (isQueued props || isStopped props || isFailed props || isCanceled props
     = true ∧ t = "Remove from queue")
  ∨ (isActive props = true ∧ t = "Cancel download").
Proof.
  unfold offers, buttons. split.
  - intros [c Hc]. rewrite !elem_of_app, !elem_of_button in Hc. tauto.
  - intros H.
    repeat destruct H as [H|H]; destruct H as [Hc ->]; eexists;
      rewrite !elem_of_app, !elem_of_button; rewrite Hc; tauto.
Qed.

(** X8. Which controls an item offers, by status: Start for queued and
    ready; Stop and Cancel together for downloading, postprocessing and
    fetching; Resume for stopped; Retry for failed; Remove for queued,
    ready, stopped, failed and canceled, hence never for an item that is
    active or done; Open file for a done item with a non-empty
    final_path. *)
Theorem button_policy (props : QueueItemProps) :
  let st := status (item props) in
  (offers props "Start download" ↔ st = "queued" ∨ st = "ready")
  ∧ (offers props "Stop download" ↔
       st = "downloading" ∨ st = "postprocessing" ∨ st = "fetching")
  ∧ (offers props "Cancel download" ↔
       st = "downloading" ∨ st = "postprocessing" ∨ st = "fetching")
  ∧ (offers props "Resume download" ↔ st = "stopped")
  ∧ (offers props "Retry download" ↔ st = "failed")
  ∧ (offers props "Remove from queue" ↔
       st = "queued" ∨ st = "ready" ∨ st = "stopped" ∨ st = "failed"
       ∨ st = "canceled")
  ∧ (offers props "Open file" ↔
       st = "done" ∧ ∃ p, final_path (item props) = Some p ∧ p ≠ "").
Proof.
  cbv zeta. repeat split.
  all: try (intros H; apply offers_iff in H;
            destruct (isDone props) eqn:Hdone;
            repeat destruct H as [H|H]; destruct H as [Hc Ht];
            try discriminate Ht; revert Hc;
            unfold isQueued, isActive, isStopped, isFailed, isCanceled;
            rewrite ?orb_true_iff, ?String.eqb_eq; tauto).
  all: try (intros H; apply offers_iff;
            unfold isQueued, isActive, isStopped, isFailed, isCanceled;
            rewrite ?orb_true_iff, ?String.eqb_eq; tauto).
  - apply offers_iff in H.
    destruct (isDone props) eqn:Hdone;
      repeat destruct H as [H|H]; destruct H as [Hc Ht]; try discriminate Ht;
      try discriminate Hc.
    unfold isDone in Hdone. apply String.eqb_eq in Hdone.
    exact Hdone.
  - apply offers_iff in H.
    destruct (isDone props) eqn:Hdone;
      repeat destruct H as [H|H]; destruct H as [Hc Ht]; try discriminate Ht;
      try discriminate Hc.
    simpl in Hc.
    destruct (final_path (item props)) as [p|]; [|discriminate Hc].
    exists p. split; [reflexivity|]. intros ->. discriminate Hc.
  - intros [Hd (p & Hp & Hne)]. apply offers_iff.
    unfold isDone. rewrite Hd, Hp. simpl.
    unfold truthy. apply String.eqb_neq in Hne. rewrite Hne. simpl. tauto.
Qed.

Lemma truthy_ne (p : string) : truthy p = true ↔ p ≠ "".
Proof.
  unfold truthy. rewrite negb_true_iff. apply String.eqb_neq.
Qed.

(** X9. On the page, every control of an item acts on that item only: the
    lifecycle buttons invoke their command with the item's own id, each
    followed by a queue reload except Stop; Open file opens the item's
    non-empty final_path; the folder button opens a non-empty path, the
    final_path of a done item when it has one and the output directory
    otherwise, and does nothing when there is no such path. *)
Theorem clicks_target_own_item (it : QueueItem) (t : string)
    (c : list Effect) :
  (t, c) ∈ buttons (page_props it) →
  ((t = "Start download" ∨ t = "Resume download")
   ∧ c = [invoke "start_download" (id it); refreshQueue])
  ∨ (t = "Stop download" ∧ c = [invoke "stop_download" (id it)])
  ∨ (t = "Cancel download"
     ∧ c = [invoke "cancel_download" (id it); refreshQueue])
  ∨ (t = "Retry download"
     ∧ c = [invoke "retry_download" (id it); refreshQueue])
  ∨ (t = "Remove from queue"
     ∧ c = [invoke "remove_download" (id it); refreshQueue])
  ∨ (t = "Open file" ∧ status it = "done"
     ∧ ∃ p, final_path it = Some p ∧ p ≠ "" ∧ c = [invoke "open_file" p])
  ∨ (t = "Reveal in folder" ∧ status it = "done"
     ∧ ((∃ p, final_path it = Some p ∧ p ≠ ""
              ∧ c = [invoke "open_folder" p])
        ∨ (truthy_opt (final_path it) = false ∧ output_dir it ≠ ""
           ∧ c = [invoke "open_folder" (output_dir it)])
        ∨ (truthy_opt (final_path it) = false ∧ output_dir it = ""
           ∧ c = [])))
  ∨ (t = "Open download folder" ∧ status it ≠ "done" ∧ output_dir it ≠ ""
     ∧ c = [invoke "open_folder" (output_dir it)]).
Proof.
  unfold buttons. rewrite !elem_of_app, !elem_of_button.
  intros H. repeat destruct H as [H|H]; destruct H as (Hc & -> & ->).
  - left. split; [left|]; reflexivity.
  - right. left. split; reflexivity.
  - left. split; [right|]; reflexivity.
  - do 3 right. left. split; reflexivity.
  - do 5 right. left. split; [reflexivity|].
    apply andb_true_iff in Hc as [Hd Hp]. unfold isDone in Hd. simpl in Hd.
    apply String.eqb_eq in Hd. split; [exact Hd|].
    unfold handleOpenFile. simpl. simpl in Hp.
    destruct (final_path it) as [p|]; [|discriminate Hp]. simpl in Hp.
    exists p. rewrite Hp. split; [reflexivity|].
    split; [apply truthy_ne, Hp|reflexivity].
  - unfold handleOpenFolder, isDone in *. simpl in *.
    assert (Hfalse : ∀ x, truthy x = false → x = "")
      by (intros x Hx; unfold truthy in Hx;
          apply negb_false_iff, String.eqb_eq in Hx; exact Hx).
    destruct (String.eqb_spec (status it) "done") as [Hd|Hd]; simpl in *.
    + do 6 right. left. split; [reflexivity|]. split; [exact Hd|].
      destruct (final_path it) as [p|]; simpl;
        [destruct (truthy p) eqn:Hp; simpl; rewrite ?Hp|];
        [left; exists p; split; [reflexivity|];
         split; [apply truthy_ne, Hp|reflexivity]|..];
        right; (destruct (truthy (output_dir it)) eqn:Ho;
                [left; split; [reflexivity|];
                 split; [apply truthy_ne, Ho|reflexivity]
                |right; split; [reflexivity|];
                 split; [apply Hfalse, Ho|reflexivity]]).
    + do 7 right. split; [reflexivity|]. split; [exact Hd|].
      rewrite Hc. split; [apply truthy_ne, Hc|reflexivity].
  - do 4 right. left. split; reflexivity.
  - right. right. left. split; reflexivity.
Qed.

Lemma clicks_target_own_item_witness :
  [invoke "retry_download" "job-7"; refreshQueue]
  = [invoke "retry_download" (id (sample_item "job-7" "failed")); refreshQueue]
  ∧ (("Retry download", retryDownload "job-7")
     ∈ buttons (page_props (sample_item "job-7" "failed"))).
Proof.
  assert (Hin : ("Retry download", retryDownload "job-7")
                ∈ buttons (page_props (sample_item "job-7" "failed"))).
  { vm_compute. set_solver. }
  split; [|exact Hin].
  destruct (clicks_target_own_item _ _ _ Hin)
    as [[_ H]|[[H _]|[[H _]|[[_ H]|[[H _]|[[H _]|[[H _]|[H _]]]]]]]];
    try discriminate H.
  reflexivity.
Defined.

(** The titles of the folder button of an item that is not done. *)
Lemma titles_of_status (it : QueueItem) :
  let folder := if truthy (output_dir it) then ["Open download folder"]
                else [] in
  (status it = "stopped" →
     (buttons (page_props it)).*1
     = ["Resume download"] ++ folder ++ ["Remove from queue"])
  ∧ (status it = "downloading" ∨ status it = "postprocessing" →
     (buttons (page_props it)).*1
     = ["Stop download"] ++ folder ++ ["Cancel download"])
  ∧ (status it = "failed" →
     (buttons (page_props it)).*1
     = ["Retry download"] ++ folder ++ ["Remove from queue"])
  ∧ (status it = "canceled" →
     (buttons (page_props it)).*1 = folder ++ ["Remove from queue"])
  ∧ (status it = "done" →
     (buttons (page_props it)).*1
     = (if truthy_opt (final_path it) then ["Open file"] else [])
       ++ ["Reveal in folder"]).
Proof.
  cbv zeta.
  unfold buttons, isQueued, isActive, isStopped, isFailed, isDone, isCanceled.
  simpl. repeat split; intros Hst; try destruct Hst as [Hst|Hst];
    rewrite Hst; simpl;
    repeat match goal with
      | |- context [button ?c _ _] => destruct c; simpl
      end; reflexivity.
Qed.

(** X10. The controls an item offers after an event for it: Resume and
    Remove after DownloadStopped; Stop and Cancel after DownloadStarted and
    DownloadPostProcessing; Retry and Remove after DownloadFailed; Remove
    alone after DownloadCanceled; Open file (for a non-empty path) and
    Reveal in folder after DownloadCompleted; between them stands the
    folder button of an item with an output directory. *)
Theorem controls_after_event (s : HookState) (i : nat) (it : QueueItem) :
  queue s !! i = Some it →
  let folder := if truthy (output_dir it) then ["Open download folder"]
                else [] in
  let titles_after e :=
    (λ it', (buttons (page_props it')).*1) <$> (queue (handleEvent e s) !! i) in
  titles_after (DownloadStopped (id it))
  = Some (["Resume download"] ++ folder ++ ["Remove from queue"])
  ∧ titles_after (DownloadStarted (id it))
    = Some (["Stop download"] ++ folder ++ ["Cancel download"])
  ∧ (∀ step, titles_after (DownloadPostProcessing (id it) step)
             = Some (["Stop download"] ++ folder ++ ["Cancel download"]))
  ∧ (∀ code msg acts, titles_after (DownloadFailed (id it) code msg acts)
             = Some (["Retry download"] ++ folder ++ ["Remove from queue"]))
  ∧ titles_after (DownloadCanceled (id it))
    = Some (folder ++ ["Remove from queue"])
  ∧ (∀ p, titles_after (DownloadCompleted (id it) p)
          = Some ((if truthy p then ["Open file"] else [])
                  ++ ["Reveal in folder"])).
Proof.
  intros Hi. cbv zeta.
  repeat split; intros; lookup_after Hi;
    cbn [fmap option_fmap option_map]; f_equal;
    match goal with
    | |- (buttons (page_props ?x)).*1 = _ =>
        pose proof (titles_of_status x) as Ht; cbv zeta in Ht;
        destruct Ht as (H1 & H2 & H3 & H4 & H5)
    end.
  - apply H1. reflexivity.
  - apply H2. left. reflexivity.
  - apply H2. right. reflexivity.
  - apply H3. reflexivity.
  - apply H4. reflexivity.
  - apply H5. reflexivity.
Qed.

Lemma controls_after_event_witness :
  (λ it', (buttons (page_props it')).*1)
    <$> (queue (handleEvent (DownloadStopped "job-1") sample_state) !! 0%nat)
  = Some ["Resume download"; "Open download folder"; "Remove from queue"].
Proof.
  destruct (controls_after_event sample_state 0
              (sample_item "job-1" "downloading") eq_refl) as [H _].
  exact H.
Defined.

(** X11. The colour of the status line agrees with the flags that choose
    the buttons: blue exactly for the items the component treats as active
    (fetching included), yellow for stopped, green for done, red for failed,
    light grey for canceled, and grey for every other status, known or
    unknown. *)
Theorem status_colour_matches_flags (props : QueueItemProps) :
  let colour := getStatusColor (status (item props)) in
  (colour = "text-blue-500" ↔ isActive props = true)
  ∧ (colour = "text-yellow-500" ↔ isStopped props = true)
  ∧ (colour = "text-green-500" ↔ isDone props = true)
  ∧ (colour = "text-red-500" ↔ isFailed props = true)
  ∧ (colour = "text-zinc-400" ↔ isCanceled props = true)
  ∧ (colour = "text-zinc-500" ↔
       isActive props = false ∧ isStopped props = false
       ∧ isDone props = false ∧ isFailed props = false
       ∧ isCanceled props = false).
Proof.
  cbv zeta.
  unfold getStatusColor, isActive, isStopped, isDone, isFailed, isCanceled.
  status_cases; repeat split; intros; try discriminate; try reflexivity;
    repeat match goal with H : _ ∧ _ |- _ => destruct H end;
    try discriminate;
    destruct (String.eqb (status (item props)) "canceled");
    first [discriminate | reflexivity].
Qed.

(** X12. A status outside the nine members of DownloadStatus, which a
    progress event can bring in, leaves the item without any lifecycle
    control: the only button is the folder button, the label is the raw
    status, the colour is grey and no progress bar is drawn. *)
Theorem unknown_status_offers_no_control (it : QueueItem) :
  status it ∉ DownloadStatus_literals →
  buttons (page_props it)
  = button (truthy (output_dir it)) "Open download folder"
      (handleOpenFolder (page_props it))
  ∧ getStatusLabel (status it) = status it
  ∧ getStatusColor (status it) = "text-zinc-500"
  ∧ showsProgressBar (page_props it) = false.
Proof.
  rewrite literal_cases. intros Hst.
  assert (Hne : ∀ l, l ∈ DownloadStatus_literals →
                  String.eqb (status it) l = false).
  { intros l Hl. apply String.eqb_neq. intros Heq.
    apply Hst, literal_cases. rewrite Heq. exact Hl. }
  unfold buttons, showsProgressBar, getStatusLabel, getStatusColor,
    isQueued, isActive, isStopped, isFailed, isDone, isCanceled.
  simpl.
  rewrite !Hne by (unfold DownloadStatus_literals; set_solver).
  simpl. rewrite app_nil_r. repeat split.
Qed.

Lemma unknown_status_offers_no_control_witness :
  ∃ it', queue (handleEvent
                  (DownloadProgress "job-1" "PAUSED"
                     {| percent := None; p_bytes_downloaded := None;
                        p_bytes_total := None; p_speed_bps := None;
                        p_eta_seconds := None; p_phase := None |})
                  sample_state) !! 0%nat = Some it'
    ∧ (buttons (page_props it')).*1 = ["Open download folder"]
    ∧ getStatusLabel (status it') = "paused".
Proof.
  eexists. split; [reflexivity|].
  match goal with
  | |- (buttons (page_props ?x)).*1 = _ ∧ _ =>
      destruct (unknown_status_offers_no_control x) as (Hb & Hl & _)
  end.
  - vm_compute. intros H. apply list_elem_of_In in H. simpl in H.
    repeat destruct H as [H|H]; try discriminate H. exact H.
  - rewrite Hb, Hl. split; reflexivity.
Defined.

End ItemComponent.

(** * The URL form of the page *)

Section UrlForm.

Lemma span_nonspace_app (run rest : string) :
  all_nonspace run → at_boundary rest →
  span_nonspace (run ++ rest) = (run, rest).
Proof.
  intros Hrun Hb. induction run as [|c run IH].
  - rewrite append_nil_l. destruct Hb as [->|(c & r & -> & Hc)];
      [reflexivity|]. simpl. rewrite Hc. reflexivity.
  - apply all_nonspace_cons in Hrun as [Hc Hrun].
    rewrite append_cons. simpl. rewrite Hc, (IH Hrun). reflexivity.
Qed.

(** At the head of a text that starts with a string of the pattern and
    goes on with a space or ends there, the match is that string. *)
Lemma match_at_exact (m rest : string) :
  is_url_match m → at_boundary rest → match_at (m ++ rest) = Some m.
Proof.
  intros (scheme & run & -> & Hscheme & Hne & Hrun) Hb.
  unfold match_at.
  rewrite append_assoc, (match_scheme_literal _ _ Hscheme).
  rewrite (span_nonspace_app _ _ Hrun Hb).
  destruct run; [contradiction|reflexivity].
Qed.

Lemma scan_skip (a s : string) : scan (String.length a) (a ++ s) = scan 0 s.
Proof.
  induction a as [|c a IH]; [reflexivity|].
  rewrite append_cons. simpl. exact IH.
Qed.

Lemma url_match_nonempty (m : string) :
  is_url_match m → ∃ c m', m = String c m'.
Proof.
  intros (scheme & run & -> & [->| ->] & _ & _); eexists _, _; reflexivity.
Qed.

Lemma scan_match (m rest : string) :
  is_url_match m → at_boundary rest →
  scan 0 (m ++ rest) = m :: scan 0 rest.
Proof.
  intros Hm Hb. pose proof (match_at_exact m rest Hm Hb) as Hat.
  destruct (url_match_nonempty m Hm) as (c & m' & ->).
  rewrite append_cons in Hat |- *.
  change (scan 0 (String c (m' ++ rest)))
    with (match match_at (String c (m' ++ rest)) with
          | Some m => m :: scan (String.length m - 1) (m' ++ rest)
          | None => scan 0 (m' ++ rest)
          end).
  rewrite Hat. f_equal.
  change (String.length (String c m') - 1)%nat with (String.length m' - 0)%nat.
  rewrite Nat.sub_0_r. apply scan_skip.
Qed.

Lemma scan_space (c : ascii) (s : string) :
  is_space c = true → scan 0 (String c s) = scan 0 s.
Proof. intros Hc. simpl. rewrite (match_at_space c s Hc). reflexivity. Qed.

(** Scanning matches that were joined with single spaces gives the
    matches back. *)
Lemma scan_concat (ms : list string) :
  Forall is_url_match ms → scan 0 (String.concat " " ms) = ms.
Proof.
  induction 1 as [|m ms Hm Hms IH]; [reflexivity|].
  destruct ms as [|m2 ms].
  - simpl. rewrite <- (append_nil_r m) at 1.
    rewrite (scan_match m "" Hm); [reflexivity|left; reflexivity].
  - change (String.concat " " (m :: m2 :: ms))
      with (m ++ String " " (String.concat " " (m2 :: ms))).
    rewrite (scan_match m _ Hm) by (right; eauto).
    rewrite scan_space by reflexivity. rewrite IH. reflexivity.
Qed.

Lemma scan_all_matches (k : nat) (s : string) : Forall is_url_match (scan k s).
Proof.
  apply Forall_forall. intros m Hm.
  apply scan_elem in Hm as (pre & t & _ & Ht).
  apply match_at_Some in Ht as [Hurl _]. exact Hurl.
Qed.

Lemma first_occurrences_filter (P : string → Prop) `{!∀ x, Decision (P x)}
    (l : list string) :
  first_occurrences (filter P l) = filter P (first_occurrences l).
Proof.
  induction l as [|x l IH]; [reflexivity|].
  simpl first_occurrences. rewrite !filter_cons.
  destruct (decide (P x)) as [HP|HP].
  - simpl. rewrite IH, !list_filter_filter. f_equal.
    apply list_filter_iff. intros y. tauto.
  - rewrite IH, list_filter_filter. apply list_filter_iff.
    intros y. split; [intros Hy; split; [exact Hy|]|tauto].
    intros ->. contradiction.
Qed.

(** X13. Removing a URL from the form removes exactly that URL: the URLs
    extracted from the new input are those extracted before without the
    removed one, in the same order; the preview of the removed URL is
    deleted and the other previews are kept. *)
Theorem handleRemoveUrl_removes_exactly (u : string) (st : FormState) :
  extractedUrls (urlInput (handleRemoveUrl u st))
  = filter (λ v, v ≠ u) (extractedUrls (urlInput st))
  ∧ (u ∉ extractedUrls (urlInput (handleRemoveUrl u st)))
  ∧ urlPreviews (handleRemoveUrl u st) !! u = None
  ∧ (∀ v, v ≠ u →
       urlPreviews (handleRemoveUrl u st) !! v = urlPreviews st !! v).
Proof.
  assert (Hms : default [] (match_g (urlInput st)) = scan 0 (urlInput st))
    by (unfold match_g; destruct (scan 0 (urlInput st)); reflexivity).
  assert (Heq : extractedUrls (urlInput (handleRemoveUrl u st))
                = filter (λ v, v ≠ u) (extractedUrls (urlInput st))).
  { simpl. rewrite Hms, !extractedUrls_loop.
    rewrite scan_concat
      by (apply Forall_forall; intros m [_ Hm]%list_elem_of_filter;
          revert m Hm; apply Forall_forall, scan_all_matches).
    apply first_occurrences_filter. }
  split; [exact Heq|]. split.
  { rewrite Heq, list_elem_of_filter. intros [Hne _]. apply Hne. reflexivity. }
  simpl. split; [apply lookup_delete_eq|].
  intros v Hv. apply lookup_delete_ne. congruence.
Qed.

End UrlForm.

Section Previews.

Local Open Scope list_scope.

(** X14. The selected preset always exists and is one of PRESETS: the
    preset with the requested id when there is one, and the first preset,
    recommended_best, for any other id. *)
Theorem selectedPreset_fallback (pid : string) :
  ∃ p, selectedPreset pid = Some p
    ∧ p ∈ PRESETS
    ∧ (pid ∈ Preset.id <$> PRESETS → Preset.id p = pid)
    ∧ (pid ∉ Preset.id <$> PRESETS → Preset.id p = "recommended_best").
Proof.
  assert (Hin : ∀ l, l ∈ Preset.id <$> PRESETS ↔
            l = "recommended_best" ∨ l = "mp4_1080p" ∨ l = "mp4_best"
            ∨ l = "audio_m4a" ∨ l = "audio_mp3_320").
  { intros l. unfold PRESETS. cbn [fmap list_fmap Preset.id].
    rewrite !elem_of_cons, elem_of_nil. tauto. }
  unfold selectedPreset.
  assert (Hmem : ∀ k p, PRESETS !! k = Some p → p ∈ PRESETS)
    by (intros k p Hk; eapply list_elem_of_lookup_2, Hk).
  unfold PRESETS at 1. cbn [List.find Preset.id].
  destruct (String.eqb_spec "recommended_best" pid) as [<-|H0].
  { eexists. split; [reflexivity|]. split; [apply (Hmem 0%nat); reflexivity|].
    split; reflexivity. }
  destruct (String.eqb_spec "mp4_1080p" pid) as [<-|H1].
  { eexists. split; [reflexivity|]. split; [apply (Hmem 1%nat); reflexivity|].
    split; [reflexivity|]. intros H. exfalso. apply H, Hin. tauto. }
  destruct (String.eqb_spec "mp4_best" pid) as [<-|H2].
  { eexists. split; [reflexivity|]. split; [apply (Hmem 2%nat); reflexivity|].
    split; [reflexivity|]. intros H. exfalso. apply H, Hin. tauto. }
  destruct (String.eqb_spec "audio_m4a" pid) as [<-|H3].
  { eexists. split; [reflexivity|]. split; [apply (Hmem 3%nat); reflexivity|].
    split; [reflexivity|]. intros H. exfalso. apply H, Hin. tauto. }
  destruct (String.eqb_spec "audio_mp3_320" pid) as [<-|H4].
  { eexists. split; [reflexivity|]. split; [apply (Hmem 4%nat); reflexivity|].
    split; [reflexivity|]. intros H. exfalso. apply H, Hin. tauto. }
  eexists. split; [reflexivity|]. split; [apply (Hmem 0%nat); reflexivity|].
  split; [|reflexivity].
  intros [H|[H|[H|[H|H]]]]%Hin; congruence.
Qed.

Lemma selectedPreset_fallback_witness :
  ∃ p, selectedPreset "legacy_preset" = Some p
    ∧ Preset.id p = "recommended_best".
Proof.
  destruct (selectedPreset_fallback "legacy_preset") as (p & Hp & _ & _ & Hf).
  exists p. split; [exact Hp|]. apply Hf.
  unfold PRESETS. cbn [fmap list_fmap Preset.id].
  rewrite !elem_of_cons, elem_of_nil.
  intros [H|[H|[H|[H|[H|H]]]]]; try discriminate H. exact H.
Defined.

(** X15. Changing the preset of a URL touches nothing but the presetId of
    that URL's preview: the input, the set of previewed URLs and every
    other preview stay as they are, and for a URL without a preview the
    whole form state is unchanged (no entry is created). *)
Theorem handleUrlPresetChange_spec (u pid : string) (st : FormState) :
  urlInput (handleUrlPresetChange u pid st) = urlInput st
  ∧ dom (urlPreviews (handleUrlPresetChange u pid st)) = dom (urlPreviews st)
  ∧ (urlPreviews st !! u = None → handleUrlPresetChange u pid st = st)
  ∧ (∀ e, urlPreviews st !! u = Some e →
       ∃ e', urlPreviews (handleUrlPresetChange u pid st) !! u = Some e'
         ∧ presetId e' = pid ∧ url e' = url e ∧ loading e' = loading e
         ∧ data e' = data e ∧ error e' = error e)
  ∧ (∀ v, v ≠ u →
       urlPreviews (handleUrlPresetChange u pid st) !! v
       = urlPreviews st !! v).
Proof.
  unfold handleUrlPresetChange. simpl.
  destruct (urlPreviews st !! u) as [e|] eqn:Hu.
  - split; [reflexivity|]. split.
    { apply dom_insert_lookup_L. rewrite Hu. eauto. }
    split; [discriminate|]. split.
    + intros e0 [= <-]. eexists. rewrite lookup_insert_eq.
      split; [reflexivity|]. repeat split.
    + intros v Hv. apply lookup_insert_ne. congruence.
  - split; [reflexivity|]. split; [reflexivity|].
    split; [intros _; destruct st; reflexivity|].
    split; [discriminate|]. reflexivity.
Qed.

Lemma handleUrlPresetChange_spec_witness :
  let st := {| urlInput := "https://a.example/x";
               urlPreviews := {[ "https://a.example/x"
                                 := sample_preview "https://a.example/x" ]} |} in
  handleUrlPresetChange "https://b.example/y" "audio_m4a" st = st.
Proof.
  intros st.
  apply (handleUrlPresetChange_spec "https://b.example/y" "audio_m4a" st).
  apply lookup_singleton_ne. discriminate.
Defined.

(** The preview a URL gets in the next map: the old one when there is
    one, a loading one with the current preset otherwise. *)
Lemma keep_or_start_fold (old : gmap string UrlPreview) (preset : string)
    (l : list string) (n0 : gmap string UrlPreview) (f0 : list string) :
  (foldl (keep_or_start old preset) (n0, f0) l).2
  = f0 ++ filter (λ u, old !! u = None) l
  ∧ ∀ u, (foldl (keep_or_start old preset) (n0, f0) l).1 !! u
         = if decide (u ∈ l)
           then Some (default {| url := u; loading := true; data := None;
                                 error := None; presetId := preset |}
                        (old !! u))
           else n0 !! u.
Proof.
  revert n0 f0. induction l as [|x l IH]; intros n0 f0.
  - split; [simpl; rewrite app_nil_r; reflexivity|].
    intros u. case_decide as Hu; [apply elem_of_nil in Hu; destruct Hu|].
    reflexivity.
  - change (foldl (keep_or_start old preset) (n0, f0) (x :: l))
      with (foldl (keep_or_start old preset)
              (keep_or_start old preset (n0, f0) x) l).
    unfold keep_or_start at 2 4. cbn [fst snd].
    destruct (old !! x) as [e|] eqn:Hx.
    + destruct (IH (<[x:=e]> n0) f0) as [IH2 IH1].
      rewrite IH2, filter_cons_False by (rewrite Hx; discriminate).
      split; [reflexivity|].
      intros u. rewrite IH1.
      destruct (decide (u = x)) as [->|Hux].
      * repeat case_decide; rewrite ?lookup_insert_eq, ?Hx; try reflexivity;
          exfalso; match goal with H : ¬ _ |- _ => apply H; left end.
      * repeat case_decide; rewrite ?lookup_insert_ne by congruence;
          try reflexivity;
          exfalso; match goal with H : ¬ _ |- _ => apply H end;
          rewrite ?elem_of_cons in *; tauto.
    + destruct (IH (<[x:={| url := x; loading := true; data := None;
                           error := None; presetId := preset |}]> n0)
                  (f0 ++ [x])) as [IH2 IH1].
      rewrite IH2, filter_cons_True by exact Hx.
      rewrite <- app_assoc. split; [reflexivity|].
      intros u. rewrite IH1.
      destruct (decide (u = x)) as [->|Hux].
      * repeat case_decide; rewrite ?lookup_insert_eq, ?Hx; try reflexivity;
          exfalso; match goal with H : ¬ _ |- _ => apply H; left end.
      * repeat case_decide; rewrite ?lookup_insert_ne by congruence;
          try reflexivity;
          exfalso; match goal with H : ¬ _ |- _ => apply H end;
          rewrite ?elem_of_cons in *; tauto.
Qed.

(** X16. The preview effect rebuilds the preview map from the extracted
    URLs: in the app, the next map has an entry exactly for the extracted
    URLs; a URL that already had a preview keeps it unchanged and is not
    fetched again; every other URL gets a loading preview with the current
    preset and is queued for fetching, in extraction order; previews of
    URLs no longer in the input are dropped.  Outside the app, or with no
    URL, the map is emptied and nothing is fetched. *)
Theorem refreshPreviews_spec (isTauri : bool) (extracted : list string)
    (old : gmap string UrlPreview) (preset : string) :
  let next := (refreshPreviews isTauri extracted old preset).1 in
  let fetch := (refreshPreviews isTauri extracted old preset).2 in
  (isTauri = false → next = ∅ ∧ fetch = [])
  ∧ (isTauri = true →
     fetch = filter (λ u, old !! u = None) extracted
     ∧ (∀ u, u ∈ dom next ↔ u ∈ extracted)
     ∧ (∀ u e, u ∈ extracted → old !! u = Some e → next !! u = Some e)
     ∧ (∀ u, u ∈ extracted → old !! u = None →
          next !! u = Some {| url := u; loading := true; data := None;
                              error := None; presetId := preset |})
     ∧ (∀ u, u ∉ extracted → next !! u = None)).
Proof.
  cbv zeta. unfold refreshPreviews.
  split; [intros ->; split; reflexivity|]. intros ->. simpl negb. simpl orb.
  assert (Hfold : (if Nat.eqb (List.length extracted) 0
                   then (∅, [])
                   else foldl (keep_or_start old preset) (∅, []) extracted)
                  = foldl (keep_or_start old preset) (∅, []) extracted)
    by (destruct extracted; reflexivity).
  rewrite Hfold.
  destruct (keep_or_start_fold old preset extracted ∅ []) as [H2 H1].
  split; [exact H2|].
  split.
  { intros u. rewrite elem_of_dom, H1.
    destruct (decide (u ∈ extracted)) as [Hu|Hu].
    - split; [intros _; exact Hu|intros _; eauto].
    - rewrite lookup_empty. split; [intros [? [=]]|contradiction]. }
  split.
  { intros u e Hu He. rewrite H1, decide_True by exact Hu. rewrite He.
    reflexivity. }
  split.
  { intros u Hu He. rewrite H1, decide_True by exact Hu. rewrite He.
    reflexivity. }
  intros u Hu. rewrite H1, decide_False by exact Hu. apply lookup_empty.
Qed.

Lemma refreshPreviews_spec_witness :
  (refreshPreviews true ["https://a.example/x"; "https://b.example/y"]
     {[ "https://a.example/x" := sample_preview "https://a.example/x";
        "https://c.example/z" := sample_preview "https://c.example/z" ]}
     "mp4_best").2
  = filter (λ u, ({[ "https://a.example/x"
                      := sample_preview "https://a.example/x";
                     "https://c.example/z"
                      := sample_preview "https://c.example/z" ]}
                  : gmap string UrlPreview) !! u = None)
      ["https://a.example/x"; "https://b.example/y"].
Proof.
  apply (refreshPreviews_spec true
           ["https://a.example/x"; "https://b.example/y"]).
  reflexivity.
Defined.

(** X17. Toggling a SponsorBlock category flips the membership of that
    category and of no other; a list without duplicates stays so;
    toggling an absent category twice gives the state back, and toggling a
    present one twice moves it to the end. *)
Theorem toggleSponsorBlockCategory_spec (category : string)
    (prev : AdvancedOptionsState) :
  let cs := sponsorBlockCategories prev in
  let cs' := sponsorBlockCategories (toggleSponsorBlockCategory category prev) in
  (category ∈ cs' ↔ category ∉ cs)
  ∧ (∀ c, c ≠ category → (c ∈ cs' ↔ c ∈ cs))
  ∧ (NoDup cs → NoDup cs')
  ∧ (category ∉ cs →
     toggleSponsorBlockCategory category
       (toggleSponsorBlockCategory category prev) = prev)
  ∧ (category ∈ cs →
     sponsorBlockCategories
       (toggleSponsorBlockCategory category
          (toggleSponsorBlockCategory category prev))
     = filter (λ c, c ≠ category) cs ++ [category]).
Proof.
  cbv zeta. simpl. unfold toggled.
  destruct (bool_decide_reflect (category ∈ sponsorBlockCategories prev))
    as [Hin|Hnin].
  - split.
    { rewrite list_elem_of_filter. tauto. }
    split.
    { intros c Hc. rewrite list_elem_of_filter. tauto. }
    split; [apply NoDup_filter|].
    split; [contradiction|]. intros _.
    rewrite bool_decide_eq_false_2; [reflexivity|].
    rewrite list_elem_of_filter. tauto.
  - assert (Hid : filter (λ c, c ≠ category) (sponsorBlockCategories prev)
                  = sponsorBlockCategories prev).
    { induction (sponsorBlockCategories prev) as [|x l IH]; [reflexivity|].
      apply not_elem_of_cons in Hnin as [Hx Hl].
      rewrite filter_cons_True by congruence. rewrite (IH Hl). reflexivity. }
    split.
    { rewrite elem_of_app, list_elem_of_singleton. tauto. }
    split.
    { intros c Hc. rewrite elem_of_app, list_elem_of_singleton. tauto. }
    split.
    { intros Hnd. apply NoDup_app. split; [exact Hnd|].
      split; [|apply NoDup_singleton].
      intros x Hx ->%list_elem_of_singleton. contradiction. }
    split; [|contradiction]. intros _.
    unfold toggleSponsorBlockCategory, toggled. simpl.
    rewrite ?(bool_decide_eq_false_2 _ Hnin).
    rewrite bool_decide_eq_true_2
      by (rewrite elem_of_app, list_elem_of_singleton; tauto).
    rewrite filter_app, Hid, filter_cons_False, filter_nil, app_nil_r
      by (intros H; apply H; reflexivity).
    destruct prev; reflexivity.
Qed.

Lemma toggleSponsorBlockCategory_spec_witness :
  toggleSponsorBlockCategory "intro"
    (toggleSponsorBlockCategory "intro" DEFAULT_OPTIONS) = DEFAULT_OPTIONS.
Proof.
  apply (toggleSponsorBlockCategory_spec "intro" DEFAULT_OPTIONS).
  simpl. rewrite list_elem_of_singleton. discriminate.
Defined.

End Previews.

(** * Submitting the form *)

Section Submit.

Local Open Scope list_scope.










End Submit.

Section StatusLine.

(** X19. The status line of an item is never blank while its status is one
    of the nine members of DownloadStatus: a non-empty phase is shown as it
    is, and a null or empty phase, such as an empty post-processing step,
    falls back to the label of the status. *)
Theorem status_line_never_blank (it : QueueItem) :
  status it ∈ DownloadStatus_literals →
  statusText it ≠ ""
  ∧ (∀ p, phase it = Some p → p ≠ "" → statusText it = p)
  ∧ (phase it = None ∨ phase it = Some "" →
     statusText it = getStatusLabel (status it)).
Proof.
  intros Hst. unfold statusText.
  assert (Hlabel : getStatusLabel (status it) ≠ "").
  { apply list_elem_of_In in Hst. simpl in Hst.
    repeat destruct Hst as [Hst|Hst]; try (rewrite <- Hst; discriminate).
    destruct Hst. }
  destruct (phase it) as [p|]; simpl.
  - destruct (truthy p) eqn:Hp.
    + split; [apply String.eqb_neq; unfold truthy in Hp;
              apply negb_true_iff in Hp; exact Hp|].
      split; [intros p0 [= <-] _; reflexivity|].
      intros [H|[= ->]]; [discriminate H|discriminate Hp].
    + split; [exact Hlabel|].
      split; [|intros _; reflexivity].
      intros p0 [= <-] Hne. apply String.eqb_neq in Hne.
      unfold truthy in Hp. rewrite Hne in Hp. discriminate Hp.
  - split; [exact Hlabel|]. split; [discriminate|]. intros _. reflexivity.
Qed.

Lemma status_line_never_blank_witness :
  ∃ it', queue (handleEvent (DownloadPostProcessing "job-1" "") sample_state)
           !! 0%nat = Some it'
    ∧ statusText it' = getStatusLabel "postprocessing"
    ∧ statusText it' ≠ "".
Proof.
  eexists. split; [reflexivity|].
  match goal with
  | |- statusText ?x = _ ∧ _ =>
      destruct (status_line_never_blank x) as (Hne & _ & Hlab)
  end.
  - vm_compute. set_solver.
  - split; [apply Hlab; right; reflexivity|exact Hne].
Defined.

End StatusLine.
